(** * Misago: theme admin views and the extension-hook registry

    A shallow embedding of [misago/themes/admin/views.py] and of the hook
    registry of [misago/hooks/__init__.py], with the properties claimed of
    them.

    The database tables touched by the views are finite maps from primary
    key to row.  Calls that leave the module (the message framework, the
    theme cache, the task queue, [form.save()]) are recorded, in order, in
    an effect log carried by the world. *)

From Stdlib Require Import Ascii String.
From stdpp Require Import gmap strings list fin_maps fin_sets sorting.

Local Open Scope Z_scope.

(* ===================================================================== *)
(** * Theme admin views ([misago/themes/admin/views.py])                  *)
(* ===================================================================== *)

Module Themes.

(** ** Data *)

(** A row of the [Theme] table; the primary key is the key of the map. *)
Record ThemeRow := {
  theme_name : string;
  is_default : bool;
  is_active : bool;
}.

(** A loaded [Theme] instance: its primary key and the fields read when
    it was loaded. *)
Record Theme := {
  pk : Z;
  fields : ThemeRow;
}.

(** A row of [theme.css] or [theme.media]: the owning theme and a name. *)
Record Asset := {
  asset_theme : Z;
  asset_name : string;
}.

Inductive Level := Info | Success | Error.

Inductive Task :=
  | build_theme_css (theme_pk : Z)
  | build_single_theme_css (css_pk : Z)
  | update_remote_css_size (css_pk : Z).

(** Calls that leave the module, in the order they are made. *)
Inductive Effect :=
  | Message (level : Level) (text : string)
  | ClearThemeCache
  | Delay (task : Task)
  | FormSave (theme_pk : Z) (assets : list string).

Record World := {
  themes : gmap Z ThemeRow;
  css : gmap Z Asset;
  media : gmap Z Asset;
  effects : list Effect;
}.

(** The request as the views read it: the method, the posted fields (a
    multi-valued dictionary, in posting order) and the uploaded files. *)
Record Request := {
  method : string;
  POST : list (string * string);
  FILES : list (string * string);
}.

Inductive Exception :=
  | KeyError (key : string)
  | NotImplementedError (msg : string).

(** How a call ends: it returns a value, or an exception leaves it; the
    world is the one reached either way. *)
Inductive Result (A : Type) :=
  | Return (a : A) (w : World)
  | Raise (e : Exception) (w : World).
Arguments Return {A} a w.
Arguments Raise {A} e w.

Definition world_of {A} (r : Result A) : World :=
  match r with Return _ w => w | Raise _ w => w end.

Inductive Response := Redirect (url : string) (theme_pk : Z).

#[global] Instance Level_eq_dec : EqDecision Level.
Proof. solve_decision. Defined.
#[global] Instance Task_eq_dec : EqDecision Task.
Proof. solve_decision. Defined.
#[global] Instance Effect_eq_dec : EqDecision Effect.
Proof. solve_decision. Defined.

Definition with_themes (t : gmap Z ThemeRow) (w : World) : World :=
  {| themes := t; css := css w; media := media w; effects := effects w |}.

Definition with_css (t : gmap Z Asset) (w : World) : World :=
  {| themes := themes w; css := t; media := media w; effects := effects w |}.

Definition with_media (t : gmap Z Asset) (w : World) : World :=
  {| themes := themes w; css := css w; media := t; effects := effects w |}.

Definition emit (e : Effect) (w : World) : World :=
  {| themes := themes w; css := css w; media := media w;
     effects := effects w ++ [e] |}.

(** [messages.info], [messages.success], [messages.error]. *)
Definition messages_info (text : string) : World → World := emit (Message Info text).
Definition messages_success (text : string) : World → World := emit (Message Success text).
Definition messages_error (text : string) : World → World := emit (Message Error text).

(** [clear_theme_cache()] of [..cache]. *)
Definition clear_theme_cache : World → World := emit ClearThemeCache.

(** ** Activating a theme *)

Definition set_is_active (b : bool) (r : ThemeRow) : ThemeRow :=
  {| theme_name := theme_name r; is_default := is_default r; is_active := b |}.

(** [Theme.objects.update(is_active=False)]: every row. *)
Definition update_all_inactive (t : gmap Z ThemeRow) : gmap Z ThemeRow :=
  set_is_active false <$> t.

(** [Theme.objects.filter(pk=k).update(is_active=True)]: the rows whose
    primary key is [k]; none when there is no such row. *)
Definition update_pk_active (k : Z) (t : gmap Z ThemeRow) : gmap Z ThemeRow :=
  alter (set_is_active true) k t.

Definition set_theme_as_active (request : Request) (theme : Theme) (w : World) : World :=
  let w1 := with_themes (update_all_inactive (themes w)) w in
  let w2 := with_themes (update_pk_active (pk theme) (themes w1)) w1 in
  clear_theme_cache w2.

Definition dq : string := String (Ascii.ascii_of_nat 34) EmptyString.

(** [str(theme)], as [Theme.__str__] of [..models] gives it: the name of
    the theme, and a fixed title for the default theme. *)
Definition theme_str (theme : Theme) : string :=
  if is_default (fields theme) then "Default Misago Theme"
  else theme_name (fields theme).

(** [ActivateTheme.button_action]. *)
Definition button_action (request : Request) (target : Theme) (w : World) : World :=
  let w1 := set_theme_as_active request target w in
  messages_success
    ("Active theme has been changed to " +:+ dq +:+ theme_str target +:+ dq +:+ ".") w1.

(** The row of primary key [k] exists and is marked active. *)
Definition active_in (t : gmap Z ThemeRow) (k : Z) : Prop :=
  ∃ r, t !! k = Some r ∧ is_active r = true.

(** ** Theme assets *)

(** [redirect_to_theme_assets]. *)
Definition redirect_to_theme_assets (theme : Theme) : Response :=
  Redirect "misago:admin:appearance:themes:assets" (pk theme).

(** [QueryDict.getlist(key)]: every value posted under [key], in order. *)
Definition getlist (key : string) (d : list (string * string)) : list string :=
  snd <$> filter (λ kv, fst kv = key) d.

(** [ThemeAssetsActionAdmin.action], which the concrete views override. *)
Definition ThemeAssetsActionAdmin_action (request : Request) (theme : Theme) (w : World)
    : Result unit :=
  Raise (NotImplementedError "action method must be implemented in inheriting class") w.

(** *** Uploading assets *)

(** The bound form after validation, as far as [action] reads it:
    [is_valid()], [cleaned_data.get("assets")] ([None] when the key is
    absent) and [errors["assets"]] ([None] when the key is absent, where
    the subscript raises [KeyError]).  The form classes live in [.forms]. *)
Record Form := {
  is_valid : bool;
  cleaned_assets : option (list string);
  errors_assets : option (list string);
}.

(** Python truthiness of [cleaned_data.get("assets")]. *)
Definition truthy {A} (o : option (list A)) : bool :=
  match o with
  | Some (_ :: _) => true
  | _ => false
  end.

(** The two concrete upload views: their success message and form class. *)
Record UploadView := {
  message_success : string;
  form : Request → Theme → Form;
}.

Definition message_partial_success : string :=
  "Some css files could not have been added to the theme.".

Definition UploadThemeCss (UploadCssForm : Request → Theme → Form) : UploadView :=
  {| message_success := "New CSS files have been added to the theme.";
     form := UploadCssForm |}.

Definition UploadThemeMedia (UploadMediaForm : Request → Theme → Form) : UploadView :=
  {| message_success := "New media files have been added to the theme.";
     form := UploadMediaForm |}.

(** The tail of [UploadThemeAssets.action]: the second [if]. *)
Definition upload_save (self : UploadView) (f : Form) (theme : Theme) (w : World) : World :=
  if truthy (cleaned_assets f) then
    let w1 := emit (FormSave (pk theme) (default [] (cleaned_assets f))) w in
    let w2 := emit (Delay (build_theme_css (pk theme))) w1 in
    messages_success (message_success self) w2
  else w.

(** What the second [if] of [action] adds to the effect log when some
    asset passed cleaning. *)
Definition saved (self : UploadView) (theme : Theme) (assets : list string) : list Effect :=
  [FormSave (pk theme) assets; Delay (build_theme_css (pk theme));
   Message Success (message_success self)].

(** [UploadThemeAssets.action]. *)
Definition UploadThemeAssets_action (self : UploadView) (request : Request) (theme : Theme)
    (w : World) : Result unit :=
  let f := form self request theme in
  if negb (is_valid f) then
    let w1 := if truthy (cleaned_assets f)
              then messages_info message_partial_success w else w in
    match errors_assets f with
    | None => Raise (KeyError "assets") w1
    | Some errors =>
        let w2 := foldl (λ acc error, messages_error error acc) w1 errors in
        Return tt (upload_save self f theme w2)
    end
  else Return tt (upload_save self f theme w).

(** *** Deleting assets *)

(** [queryset_attr]: which related manager of the theme is used. *)
Inductive AssetKind := CssAssets | MediaAssets.

Inductive DeleteView := DeleteThemeCss | DeleteThemeMedia.

#[global] Instance AssetKind_eq_dec : EqDecision AssetKind.
Proof. solve_decision. Defined.

Definition message_submit (self : DeleteView) : string :=
  match self with
  | DeleteThemeCss => "Selected CSS files have been deleted."
  | DeleteThemeMedia => "Selected media have been deleted."
  end.

Definition queryset_attr (self : DeleteView) : AssetKind :=
  match self with
  | DeleteThemeCss => CssAssets
  | DeleteThemeMedia => MediaAssets
  end.

Definition table (attr : AssetKind) (w : World) : gmap Z Asset :=
  match attr with
  | CssAssets => css w
  | MediaAssets => media w
  end.

Definition with_table (attr : AssetKind) (t : gmap Z Asset) (w : World) : World :=
  match attr with
  | CssAssets => with_css t w
  | MediaAssets => with_media t w
  end.

(** [getattr(theme, queryset_attr)]: the rows of the table owned by the
    theme. *)
Record Queryset := {
  qs_attr : AssetKind;
  qs_theme : Z;
}.

(** [delete_asset]: [queryset.get(pk=item).delete()], where a missing row
    ([ObjectDoesNotExist]) is passed over. *)
Definition delete_asset (queryset : Queryset) (item : Z) (w : World) : World :=
  match table (qs_attr queryset) w !! item with
  | Some a =>
      if bool_decide (asset_theme a = qs_theme queryset)
      then with_table (qs_attr queryset) (delete item (table (qs_attr queryset) w)) w
      else w
  | None => w
  end.

Section Delete.

(** Python's [int] applied to a string: [None] where it raises
    [ValueError]. *)
Variable py_int : string → option Z.

(** [clean_items_list]: the set comprehension over the first twenty
    posted items; [None] when a conversion raises. *)
Definition clean_items_list (request : Request) : option (gset Z) :=
  match mapM py_int (take 20 (getlist "item" (POST request))) with
  | Some ns => Some (list_to_set ns)
  | None => None
  end.

(** [DeleteThemeAssets.action]. *)
Definition DeleteThemeAssets_action (self : DeleteView) (request : Request)
    (theme : Theme) (w : World) : World :=
  match clean_items_list request with
  | Some items =>
      if decide (items = ∅) then w
      else
        let queryset := {| qs_attr := queryset_attr self; qs_theme := pk theme |} in
        let w1 := set_fold (delete_asset queryset) w items in
        messages_success (message_submit self) w1
  | None => w
  end.

(** [DeleteThemeCss.action]: the inherited action, then the theme cache
    is cleared. *)
Definition DeleteThemeCss_action (request : Request) (theme : Theme) (w : World) : World :=
  clear_theme_cache (DeleteThemeAssets_action DeleteThemeCss request theme w).

(** The views that inherit [ThemeAssetsActionAdmin]. *)
Inductive ActionView :=
  | Upload (self : UploadView)
  | Delete (self : DeleteView).

(** [self.action(request, theme)], resolved on the class of the view. *)
Definition action (self : ActionView) (request : Request) (theme : Theme) (w : World)
    : Result unit :=
  match self with
  | Upload v => UploadThemeAssets_action v request theme w
  | Delete DeleteThemeCss => Return tt (DeleteThemeCss_action request theme w)
  | Delete DeleteThemeMedia =>
      Return tt (DeleteThemeAssets_action DeleteThemeMedia request theme w)
  end.

(** [ThemeAssetsActionAdmin.real_dispatch]. *)
Definition real_dispatch (self : ActionView) (request : Request) (theme : Theme)
    (w : World) : Result Response :=
  if bool_decide (method request = "POST") then
    match action self request theme w with
    | Return _ w1 => Return (redirect_to_theme_assets theme) w1
    | Raise e w1 => Raise e w1
    end
  else Return (redirect_to_theme_assets theme) w.

(** The assets of a table that a call removed. *)
Definition deleted (attr : AssetKind) (w w' : World) : gset Z :=
  dom (table attr w) ∖ dom (table attr w').

End Delete.

(** *** A decimal reading of [int] on ASCII strings

    Surrounding blanks are dropped, one sign is allowed, then one or more
    decimal digits.  Python's [int] accepts more (underscores between
    digits, digits outside ASCII); the properties below are proved for
    every reading of [int], and this one serves to run the views on
    concrete requests. *)

Definition is_blank (c : ascii) : bool :=
  let n := nat_of_ascii c in
  bool_decide (n = 32 ∨ (9 ≤ n ∧ n ≤ 13))%nat.

Definition digit_of (c : ascii) : option Z :=
  let n := nat_of_ascii c in
  if bool_decide (48 ≤ n ∧ n ≤ 57)%nat then Some (Z.of_nat n - 48) else None.

Fixpoint drop_blanks (l : list ascii) : list ascii :=
  match l with
  | c :: l' => if is_blank c then drop_blanks l' else l
  | [] => []
  end.

Definition strip (l : list ascii) : list ascii :=
  reverse (drop_blanks (reverse (drop_blanks l))).

Definition digits_value (l : list ascii) : option Z :=
  match l with
  | [] => None
  | _ => foldl (λ acc c, a ← acc; d ← digit_of c; Some (10 * a + d)) (Some 0) l
  end.

Definition int_ascii (s : string) : option Z :=
  match strip (String.list_ascii_of_string s) with
  | "-"%char :: ds => Z.opp <$> digits_value ds
  | "+"%char :: ds => digits_value ds
  | ds => digits_value ds
  end.

(** ** Concrete requests and worlds *)

Definition activate_request : Request :=
  {| method := "POST"; POST := []; FILES := [] |}.

Definition theme_1 : Theme :=
  {| pk := 1;
     fields := {| theme_name := "Dark"; is_default := false; is_active := false |} |}.

(** A table that holds one active theme, of primary key 2, and no row of
    primary key 1. *)
Definition world_without_1 : World :=
  {| themes := {[ 2 := {| theme_name := "Light"; is_default := true; is_active := true |} ]};
     css := ∅; media := ∅; effects := [] |}.

(** A theme-1 stylesheet of primary key 3 and a posting whose second
    item is not a number. *)
Definition world_with_css_3 : World :=
  {| themes := {[ 1 := {| theme_name := "Dark"; is_default := false; is_active := false |} ]};
     css := {[ 3 := {| asset_theme := 1; asset_name := "site.css" |} ]};
     media := ∅; effects := [] |}.

Definition delete_request_bad : Request :=
  {| method := "POST"; POST := [("item", "3"); ("item", "x")]; FILES := [] |}.

Definition delete_request_good : Request :=
  {| method := "POST"; POST := [("item", "3"); ("item", " 3 "); ("item", "4")]; FILES := [] |}.

(** An upload in which one file passed cleaning and one was rejected. *)
Definition partly_valid_form : Form :=
  {| is_valid := false;
     cleaned_assets := Some ["site.css"];
     errors_assets := Some ["notes.txt is not a CSS file."] |}.

Definition upload_request : Request :=
  {| method := "POST"; POST := []; FILES := [("assets", "site.css"); ("assets", "notes.txt")] |}.

Definition upload_css_view : UploadView := UploadThemeCss (λ _ _, partly_valid_form).

End Themes.

(* ===================================================================== *)
(** * The extension-hook registry ([misago/hooks/__init__.py])            *)
(* ===================================================================== *)

Module Hooks.

(** ** The open contribution points of the registry module

    [graphql_directives_hook] is a plain dictionary from directive name to
    directive class, [graphql_type_defs_hook] and [graphql_types_hook] are
    plain lists; all three start empty.  A plugin contributes by item
    assignment, respectively by [append]. *)

Section Registry.

Context {Directive SchemaBindable : Type}.

Definition graphql_directives_hook : gmap string Directive := ∅.
Definition graphql_type_defs_hook : list string := [].
Definition graphql_types_hook : list SchemaBindable := [].

(** How a registration ends. *)
Inductive Registration :=
  | Stored (d : gmap string Directive)
  | RegistrationError (name : string).

(** [hook[name] = directive] on a dictionary: the key is bound to the
    new value whether or not it was bound before. *)
Definition setitem (name : string) (directive : Directive)
    (hook : gmap string Directive) : Registration :=
  Stored (<[name := directive]> hook).

(** Two registrations in a row. *)
Definition setitem_twice (n1 : string) (d1 : Directive) (n2 : string) (d2 : Directive)
    (hook : gmap string Directive) : Registration :=
  match setitem n1 d1 hook with
  | Stored hook1 => setitem n2 d2 hook1
  | RegistrationError n => RegistrationError n
  end.

Definition raises (r : Registration) : Prop :=
  ∃ n, r = RegistrationError n.

Definition binds (r : Registration) (name : string) (directive : Directive) : Prop :=
  ∃ d, r = Stored d ∧ d !! name = Some directive.

(** [hook.append(x)] on the two lists. *)
Definition append {A} (x : A) (hook : list A) : list A := hook ++ [x].

End Registry.

(** The interception hooks that the module instantiates, one for each
    extension point. *)
Inductive FilterHookInstance :=
  | authenticate_user_hook
  | create_user_hook
  | create_user_token_hook
  | create_user_token_payload_hook
  | get_auth_user_hook
  | get_user_from_context_hook
  | get_user_from_token_hook
  | get_user_from_token_payload_hook
  | graphql_context_hook
  | register_input_hook
  | register_input_model_hook
  | register_user_hook.

(** ** The two hook shapes

    [ActionHook] and [FilterHook] are imported by the registry module from
    [.action] and [.filter], two files that are not at hand.  The
    definitions below follow the design document instead: a notification
    hook and an interception hook, both keeping their callables in a
    sequence ordered by priority, then by registration. *)

Section Engine.

(** Arguments, results, exceptions, and the state the callables can
    read and write. *)
Context {Args Res Exc W : Type}.

Inductive Outcome (A : Type) :=
  | Ok (r : A)
  | Err (e : Exc).
Arguments Ok {A} r.
Arguments Err {A} e.

(** Modelled from the spec: the behaviour of an interceptor, whose type
    [FilterHook] would fix.  Once called it may return, raise, call
    [next] with arguments of its choice and go on with the value that
    [next] returned, read the state, write it. *)
Inductive Action :=
  | Ret (r : Res)
  | Throw (e : Exc)
  | Next (a : Args) (k : Res → Action)
  | Get (k : W → Action)
  | Put (w : W) (k : Action).

(** Modelled from the spec: an interceptor of [FilterHook].  It is called
    with the arguments; [Next] is its handle on the rest of the chain. *)
Definition Interceptor : Type := Args → Action.

(** Modelled from the spec: a listener of [ActionHook].  It is called
    with the arguments, may change the state, and returns or raises. *)
Definition Listener : Type := Args → W → W * Outcome Res.

(** Modelled from the spec: an element of the ordered sequence that both
    hook classes keep.  It holds a registered callable, the priority it
    was registered under and its registration number, counted from 0 in
    registration order. *)
Record Entry (C : Type) := {
  priority : Z;
  seq : nat;
  callable : C;
}.
Arguments priority {C} e.
Arguments seq {C} e.
Arguments callable {C} e.

Inductive Link :=
  | Registered (id : nat)
  | Default.

Inductive Event :=
  | Called (who : Link) (a : Args)
  | Returned (who : Link) (r : Res)
  | Raised (who : Link) (e : Exc).

(** One run of [invoke]: what was called, in order; the state reached;
    how it ended. *)
Record Run (A : Type) := {
  trace : list Event;
  final : W;
  outcome : Outcome A;
}.
Arguments trace {A} r.
Arguments final {A} r.
Arguments outcome {A} r.

#[global] Instance Link_eq_dec : EqDecision Link.
Proof. solve_decision. Defined.

(** The priority used when [register] is given none; the design document
    names it without giving its value. *)
Variable default_priority : Z.

(** Modelled from the spec: the ordered insertion of [register], whose
    source ([.action], [.filter]) is not at hand.  The new entry goes
    after every entry of lower or equal priority. *)
Fixpoint insert_by_priority {C} (e : Entry C) (l : list (Entry C)) : list (Entry C) :=
  match l with
  | [] => [e]
  | x :: l' =>
      if bool_decide (priority e < priority x) then e :: l
      else x :: insert_by_priority e l'
  end.

(** Registering a list of entries, first to last, on a sequence. *)
Definition insert_all {C} (entries : list (Entry C)) (l : list (Entry C)) : list (Entry C) :=
  foldl (λ acc e, insert_by_priority e acc) l entries.

(** Ascending priority, with and without ties. *)
Definition by_priority {C} : relation (Entry C) := λ x y, priority x ≤ priority y.
Definition by_priority_strict {C} : relation (Entry C) := λ x y, priority x < priority y.

(** Ascending registration number. *)
Definition by_seq {C} : relation (Entry C) := λ x y, (seq x < seq y)%nat.

Definition entry {C} (c : C) (p : option Z) (n : nat) : Entry C :=
  {| priority := default default_priority p; seq := n; callable := c |}.

(** The entries of a list of registrations, in registration order, the
    first of them being registration number [n]. *)
Fixpoint entries_from {C} (n : nat) (regs : list (C * option Z)) : list (Entry C) :=
  match regs with
  | [] => []
  | r :: regs' => entry r.1 r.2 n :: entries_from (S n) regs'
  end.

Definition entries {C} (regs : list (C * option Z)) : list (Entry C) :=
  entries_from 0 regs.

(** Lower priority first, and of two equal priorities the one registered
    first. *)
Definition by_priority_then_seq {C} : relation (Entry C) :=
  λ x y, priority x < priority y ∨ (priority x = priority y ∧ (seq x < seq y)%nat).

(** Modelled from the spec: the order that the design document asks of
    the chain, read off the registrations themselves.  [priority_of regs i]
    is the priority that registration number [i] was made under, the
    default one when none was given; registration [i] goes before
    registration [j] when its priority is lower, or equal with [i]
    registered first. *)
Definition priority_of {C} (regs : list (C * option Z)) (i : nat) : Z :=
  default default_priority (regs !! i ≫= snd).

Definition before {C} (regs : list (C * option Z)) : relation nat :=
  λ i j, priority_of regs i < priority_of regs j
         ∨ (priority_of regs i = priority_of regs j ∧ (i < j)%nat).

Definition by_priority_of {C} (regs : list (C * option Z)) : relation nat :=
  λ i j, priority_of regs i < priority_of regs j.

(** The name under which a registered callable shows in a trace. *)
Definition link_of {C} (e : Entry C) : Link := Registered (seq e).

(** *** InterceptionHook *)

(** Modelled from the spec: the state of a [FilterHook], an ordered
    sequence of interceptors and the one terminal default callable. *)
Record InterceptionHook := {
  interceptors : list (Entry Interceptor);
  default_callable : Args → W → W * Outcome Res;
}.

(** Modelled from the spec: the constructor of an interception hook,
    given the terminal default callable. *)
Definition new_hook (d : Args → W → W * Outcome Res) : InterceptionHook :=
  {| interceptors := []; default_callable := d |}.

(** Modelled from the spec: [InterceptionHook.register]. *)
Definition register (i : Interceptor) (p : option Z) (h : InterceptionHook)
    : InterceptionHook :=
  {| interceptors :=
       insert_by_priority (entry i p (length (interceptors h))) (interceptors h);
     default_callable := default_callable h |}.

Definition register_all (regs : list (Interceptor * option Z)) (h : InterceptionHook)
    : InterceptionHook :=
  foldl (λ acc r, register r.1 r.2 acc) h regs.

(** Modelled from the spec: one interceptor running with its [next]
    handle.  An exception that leaves [next] leaves the interceptor too. *)
Fixpoint run_action (self : Link) (next : Args → W → Run Res) (act : Action) (w : W)
    : Run Res :=
  match act with
  | Ret r => {| trace := [Returned self r]; final := w; outcome := Ok r |}
  | Throw e => {| trace := [Raised self e]; final := w; outcome := Err e |}
  | Next a k =>
      let r1 := next a w in
      match outcome r1 with
      | Err _ => r1
      | Ok v =>
          let r2 := run_action self next (k v) (final r1) in
          {| trace := trace r1 ++ trace r2; final := final r2; outcome := outcome r2 |}
      end
  | Get k => run_action self next (k w) w
  | Put w' k => run_action self next k w'
  end.

(** The default callable, at the tail of the chain. *)
Definition call_default (d : Args → W → W * Outcome Res) (a : Args) (w : W) : Run Res :=
  let r := d a w in
  {| trace := [Called Default a;
               match r.2 with
               | Ok v => Returned Default v
               | Err e => Raised Default e
               end];
     final := r.1; outcome := r.2 |}.

(** Modelled from the spec: the bound chain.  Each interceptor is called
    with the arguments and, as [next], the rest of the chain. *)
Fixpoint call_chain (chain : list (Entry Interceptor))
    (d : Args → W → W * Outcome Res) (a : Args) (w : W) : Run Res :=
  match chain with
  | [] => call_default d a w
  | e :: rest =>
      let r := run_action (link_of e) (call_chain rest d) (callable e a) w in
      {| trace := Called (link_of e) a :: trace r; final := final r; outcome := outcome r |}
  end.

(** Modelled from the spec: [InterceptionHook.invoke]. *)
Definition invoke (h : InterceptionHook) (a : Args) (w : W) : Run Res :=
  call_chain (interceptors h) (default_callable h) a w.

(** The links called during a run, in order. *)
Definition visits (t : list Event) : list Link :=
  omap (λ ev, match ev with Called who _ => Some who | _ => None end) t.

(** The links of a chain in chain order, the default last. *)
Definition links (chain : list (Entry Interceptor)) : list Link :=
  (link_of <$> chain) ++ [Default].

(** The visits [v] follow the order [L]: only links of [L] are visited,
    and a link is visited only after every link that stands before it
    in [L]. *)
Definition ordered_visits (L v : list Link) : Prop :=
  (∀ y, y ∈ v → y ∈ L)
  ∧ ∀ x y pre post, [x; y] `sublist_of` L → v = pre ++ y :: post → x ∈ pre.

(** The interceptor never calls [next], whatever the state. *)
Fixpoint no_next (act : Action) : Prop :=
  match act with
  | Ret _ | Throw _ => True
  | Next _ _ => False
  | Get k => ∀ w, no_next (k w)
  | Put _ k => no_next k
  end.

(** The result of the default callable does not depend on the state. *)
Definition state_independent (d : Args → W → W * Outcome Res) : Prop :=
  ∀ a w1 w2, (d a w1).2 = (d a w2).2.

(** A run is aborted by a raise: the raise is the last event, and the
    run ends with the exception raised; an exception that ends the run
    is one that a link raised. *)
Definition aborted_by_raise (r : Run Res) : Prop :=
  (∀ pre who e post,
     trace r = pre ++ Raised who e :: post → post = [] ∧ outcome r = Err e)
  ∧ (∀ e, outcome r = Err e → ∃ pre who, trace r = pre ++ [Raised who e]).

(** Two runs make the same calls and end the same way. *)
Definition same_calls (r1 r2 : Run Res) : Prop :=
  trace r1 = trace r2 ∧ outcome r1 = outcome r2.

(** The interceptor calls [next] exactly once, with arguments of its
    choice; before and after it may read and write the state, and it
    ends as it likes. *)
Fixpoint calls_next_once (act : Action) : Prop :=
  match act with
  | Ret _ | Throw _ => False
  | Next _ k => ∀ r, no_next (k r)
  | Get k => ∀ w, calls_next_once (k w)
  | Put _ k => calls_next_once k
  end.

(** Having got [v] from [next], the interceptor returns [v]. *)
Fixpoint hands_back (v : Res) (act : Action) : Prop :=
  match act with
  | Ret r => r = v
  | Throw _ | Next _ _ => False
  | Get k => ∀ w, hands_back v (k w)
  | Put _ k => hands_back v k
  end.

(** The interceptor calls [next] exactly once, with arguments of its
    choice, and returns what [next] returned; it may read and write the
    state. *)
Fixpoint hands_on (act : Action) : Prop :=
  match act with
  | Ret _ | Throw _ => False
  | Next _ k => ∀ v, hands_back v (k v)
  | Get k => ∀ w, hands_on (k w)
  | Put _ k => hands_on k
  end.

(** In the trace [t], every call of [who] is answered at once: the next
    event is the return or the raise of [who] itself, so that [who] did
    not call [next] in between. *)
Definition answers_at_once (who : Link) (t : list Event) : Prop :=
  ∀ pre b post,
    t = pre ++ Called who b :: post →
    ∃ post', (∃ v, post = Returned who v :: post')
             ∨ (∃ e, post = Raised who e :: post').

(** Two behaviours, each started in a state of its own, take the same
    course: they call [next] with the same arguments and, given the same
    value back, go on the same way, to the same return or raise.  What
    they read and write in between is their own affair. *)
Inductive same_course : Action → W → Action → W → Prop :=
  | same_course_ret r w1 w2 : same_course (Ret r) w1 (Ret r) w2
  | same_course_throw e w1 w2 : same_course (Throw e) w1 (Throw e) w2
  | same_course_next a k1 k2 w1 w2 :
      (∀ r w1' w2', same_course (k1 r) w1' (k2 r) w2') →
      same_course (Next a k1) w1 (Next a k2) w2
  | same_course_get_l k act w1 w2 :
      same_course (k w1) w1 act w2 → same_course (Get k) w1 act w2
  | same_course_put_l w k act w1 w2 :
      same_course k w act w2 → same_course (Put w k) w1 act w2
  | same_course_get_r k act w1 w2 :
      same_course act w1 (k w2) w2 → same_course act w1 (Get k) w2
  | same_course_put_r w k act w1 w2 :
      same_course act w1 k w → same_course act w1 (Put w k) w2.

(** What the interceptor forwards, returns or raises does not depend on
    the state it is called in; it may read the state and write it. *)
Definition unaffected_by_state (i : Interceptor) : Prop :=
  ∀ a w1 w2, same_course (i a) w1 (i a) w2.

(** *** NotificationHook *)

(** Modelled from the spec: what [ActionHook.invoke] does when a listener
    raises.  The design document leaves the choice to the implementation
    and recommends the first: stop there and let the exception through,
    or go on and raise the collected exceptions at the end. *)
Inductive Policy := FailFast | IsolateAndContinue.

(** Modelled from the spec: the state of an [ActionHook], an ordered
    sequence of listeners, with the policy chosen for it. *)
Record NotificationHook := {
  listeners : list (Entry Listener);
  policy : Policy;
}.

Definition new_notification_hook (p : Policy) : NotificationHook :=
  {| listeners := []; policy := p |}.

(** Modelled from the spec: [NotificationHook.register]. *)
Definition register_listener (l : Listener) (p : option Z) (h : NotificationHook)
    : NotificationHook :=
  {| listeners := insert_by_priority (entry l p (length (listeners h))) (listeners h);
     policy := policy h |}.

Definition register_listeners (regs : list (Listener * option Z)) (h : NotificationHook)
    : NotificationHook :=
  foldl (λ acc r, register_listener r.1 r.2 acc) h regs.

(** How a notification ends: nothing is returned; the exceptions that
    the listeners raised are let through. *)
Record Notified := {
  n_trace : list Event;
  n_final : W;
  n_errors : list Exc;
}.

(** Modelled from the spec: the loop of [ActionHook.invoke].  The
    listeners are called in sequence order with the same arguments; what
    they return is dropped. *)
Fixpoint notify (pol : Policy) (ls : list (Entry Listener)) (a : Args) (w : W)
    : Notified :=
  match ls with
  | [] => {| n_trace := []; n_final := w; n_errors := [] |}
  | l :: rest =>
      let self := link_of l in
      let r := callable l a w in
      match r.2, pol with
      | Err e, FailFast =>
          {| n_trace := [Called self a; Raised self e]; n_final := r.1; n_errors := [e] |}
      | Err e, IsolateAndContinue =>
          let n := notify pol rest a r.1 in
          {| n_trace := Called self a :: Raised self e :: n_trace n;
             n_final := n_final n; n_errors := e :: n_errors n |}
      | Ok _, _ =>
          let n := notify pol rest a r.1 in
          {| n_trace := Called self a :: n_trace n;
             n_final := n_final n; n_errors := n_errors n |}
      end
  end.

(** Modelled from the spec: [NotificationHook.invoke]. *)
Definition notification_invoke (h : NotificationHook) (a : Args) (w : W) : Notified :=
  notify (policy h) (listeners h) a w.

(** The listener with its returned value replaced by [v0]. *)
Definition forget_result (v0 : Res) (e : Entry Listener) : Entry Listener :=
  {| priority := priority e;
     seq := seq e;
     callable := λ a w,
       let r := callable e a w in
       (r.1, match r.2 with Ok _ => Ok v0 | Err x => Err x end) |}.

Definition listener_links (ls : list (Entry Listener)) : list Link :=
  link_of <$> ls.

(** The arguments of the calls of a run, in order. *)
Definition call_args (t : list Event) : list Args :=
  omap (λ ev, match ev with Called _ a => Some a | _ => None end) t.

End Engine.

Arguments Ok {Exc A} r.
Arguments Err {Exc A} e.
Arguments priority {C} e.
Arguments seq {C} e.
Arguments callable {C} e.
Arguments link_of {C} e : simpl never.
Arguments trace {Args Res Exc W A} r.
Arguments final {Args Res Exc W A} r.
Arguments outcome {Args Res Exc W A} r.

(** ** Concrete hooks

    Arguments and results are integers, exceptions are named by a string,
    and the state the callables share is an optional cached integer. *)

Section Examples.

Local Abbreviation ZInterceptor := (@Interceptor Z Z string (option Z)).
Local Abbreviation ZListener := (@Listener Z Z string (option Z)).
Local Abbreviation ZHook := (@InterceptionHook Z Z string (option Z)).

(** A default callable that returns its argument, and one that is not
    implemented. *)
Definition echo (a : Z) (w : option Z) : option Z * @Outcome string Z := (w, Ok a).
Definition not_implemented (a : Z) (w : option Z) : option Z * @Outcome string Z :=
  (w, Err "NotImplementedError").

(** [lambda a, next: next(a)]. *)
Definition forwarding : ZInterceptor := λ a, Next a Ret.

(** [lambda a, next: next(a) + 1]. *)
Definition add_one : ZInterceptor := λ a, Next a (λ r, Ret (r + 1)).

(** [lambda a, next: 5]. *)
Definition intercepted : ZInterceptor := λ _, Ret 5.

(** An interceptor that keeps the first result and returns it from then
    on without calling [next]. *)
Definition caching : ZInterceptor :=
  λ a, Get (λ cache,
    match cache with
    | Some v => Ret v
    | None => Next a (λ r, Put (Some r) (Ret r))
    end).

(** An interceptor that notes its argument in the state and forwards. *)
Definition noting : ZInterceptor := λ a, Put (Some a) (Next a Ret).

(** An interceptor that raises once [next] has returned. *)
Definition raising_after : ZInterceptor := λ a, Next a (λ _, Throw "rejected").

(** An interceptor that counts its calls in the state and forwards. *)
Definition counting : ZInterceptor :=
  λ a, Get (λ count, Put (Some (default 0 count + 1)) (Next a Ret)).

(** [lambda a, next: next(a + 1)]. *)
Definition shifting : ZInterceptor := λ a, Next (a + 1) Ret.

(** An interceptor that calls [next] twice and returns the second
    result. *)
Definition twice : ZInterceptor := λ a, Next a (λ _, Next a Ret).

Definition listener : ZListener := λ a w, (Some a, Ok a).

(** A listener that raises. *)
Definition failing : ZListener := λ a w, (w, Err "failed").

(** Priorities 10 and 5, registered in that order. *)
Definition two_priorities : list (ZInterceptor * option Z) :=
  [(forwarding, Some 10); (forwarding, Some 5)].

Definition two_priorities_hook : ZHook :=
  register_all 0 two_priorities (new_hook echo).

Definition two_listeners : list (ZListener * option Z) :=
  [(listener, Some 10); (listener, Some 5)].

(** [add_one] registered ahead of [intercepted]. *)
Definition add_one_then_intercepted : ZHook :=
  register_all 0 [(add_one, None); (intercepted, None)] (new_hook echo).

Definition caching_hook : ZHook :=
  register_all 0 [(caching, None)] (new_hook echo).

Definition intercepted_hook : ZHook :=
  register_all 0 [(intercepted, None)] (new_hook not_implemented).

Definition raising_after_hook : ZHook :=
  register_all 0 [(raising_after, None); (forwarding, None)] (new_hook echo).

Definition noting_hook : ZHook :=
  register_all 0 [(noting, None)] (new_hook echo).

Definition counting_hook : ZHook :=
  register_all 0 [(counting, None)] (new_hook echo).

(** [noting] ahead of [caching], which finds the noted value and answers
    with it; [forwarding] and a default that is not implemented stand
    behind. *)
Definition noting_caching_hook : ZHook :=
  register_all 0 [(noting, None); (caching, None); (forwarding, None)]
    (new_hook not_implemented).

(** Two forwarding interceptors of different kinds under priorities 10
    and 5, the second of which changes the arguments. *)
Definition shifting_priorities : list (ZInterceptor * option Z) :=
  [(counting, Some 10); (shifting, Some 5)].

Definition shifting_priorities_hook : ZHook :=
  register_all 0 shifting_priorities (new_hook echo).

(** [twice] under priority 5 ahead of [forwarding] under priority 10. *)
Definition twice_hook : ZHook :=
  register_all 0 [(twice, Some 5); (forwarding, Some 10)] (new_hook echo).

(** A failing listener registered ahead of a listener that returns. *)
Definition failing_first : list (ZListener * option Z) :=
  [(failing, None); (listener, None)].

(** [len(s)] behind [lambda s, next: next(s.strip())]. *)
Definition length_default (s : string) (w : unit) : unit * @Outcome string Z :=
  (w, Ok (Z.of_nat (String.length s))).

Definition stripping : @Interceptor string Z string unit :=
  λ s, Next (String.string_of_list_ascii (Themes.strip (String.list_ascii_of_string s))) Ret.

Definition stripping_hook : @InterceptionHook string Z string unit :=
  register_all 0 [(stripping, None)] (new_hook length_default).

End Examples.

End Hooks.

(* ===================================================================== *)
(** * The asset views, continued                                          *)
(* ===================================================================== *)

Module ThemesMore.
Import Themes.

(** The first twenty values posted as [item], which are all that
    [clean_items_list] reads. *)
Definition posted (request : Request) : list string :=
  take 20 (getlist "item" (POST request)).

(** An upload of which nothing passed cleaning, and an invalid form
    whose errors are not those of the assets. *)
Definition rejected_form : Form :=
  {| is_valid := false;
     cleaned_assets := Some [];
     errors_assets := Some ["notes.txt is not a CSS file."] |}.

Definition form_without_asset_errors : Form :=
  {| is_valid := false;
     cleaned_assets := Some ["site.css"];
     errors_assets := None |}.

(** A stylesheet of another theme beside the one of theme 1. *)
Definition world_with_two_themes : World :=
  {| themes := ∅;
     css := {[ 3 := {| asset_theme := 1; asset_name := "site.css" |};
               4 := {| asset_theme := 2; asset_name := "other.css" |} ]};
     media := ∅; effects := [] |}.

Definition delete_request_both : Request :=
  {| method := "POST"; POST := [("item", "3"); ("item", "4")]; FILES := [] |}.

End ThemesMore.

(* ===================================================================== *)
(** * The CSS views of the theme admin ([misago/themes/admin/views.py])   *)
(* ===================================================================== *)

Module CssViews.
Import Themes.

(** ** Messages with named placeholders

    A message such as [CSS "%(name)s" has been updated.] is kept as the
    sequence of its literal parts and its placeholders; [parse] reads that
    sequence off the text of the message. *)

Inductive Segment :=
  | Lit (s : string)
  | Named (key : string).

Inductive Mode :=
  | Plain (acc : list ascii)
  | Percent
  | Key (k : list ascii)
  | Conversion (k : list ascii).

Definition text_of (acc : list ascii) : string :=
  String.string_of_list_ascii (reverse acc).

Definition flush (acc : list ascii) (segments : list Segment) : list Segment :=
  match acc with
  | [] => segments
  | _ => Lit (text_of acc) :: segments
  end.

(** One character of the message; [None] when the message leaves the
    two directives read here, [%(key)s] and [%%]. *)
Definition scan (st : option (list Segment * Mode)) (c : ascii)
    : option (list Segment * Mode) :=
  match st with
  | None => None
  | Some (segments, Plain acc) =>
      if Ascii.eqb c "%" then Some (flush acc segments, Percent)
      else Some (segments, Plain (c :: acc))
  | Some (segments, Percent) =>
      if Ascii.eqb c "(" then Some (segments, Key [])
      else if Ascii.eqb c "%" then Some (segments, Plain ["%"%char])
      else None
  | Some (segments, Key k) =>
      if Ascii.eqb c ")" then Some (segments, Conversion k)
      else if Ascii.eqb c "(" then None
      else Some (segments, Key (c :: k))
  | Some (segments, Conversion k) =>
      if Ascii.eqb c "s" then Some (Named (text_of k) :: segments, Plain [])
      else None
  end.

Definition parse (message : string) : option (list Segment) :=
  match foldl scan (Some ([], Plain [])) (String.list_ascii_of_string message) with
  | Some (segments, Plain acc) => Some (reverse (flush acc segments))
  | _ => None
  end.

(** What the CSS views can raise: an exception of the asset views, an
    [AttributeError] on [None], or an exception of a module that is not
    at hand, named by its class. *)
Inductive Error :=
  | Exc (e : Exception)
  | AttributeError (attr : string)
  | Other (name : string).

(** [d[key]] on a dictionary display such as [{"name": css.name}]. *)
Fixpoint getitem (key : string) (d : list (string * string)) : option string :=
  match d with
  | [] => None
  | (k, v) :: d' => if bool_decide (k = key) then Some v else getitem key d'
  end.

(** [message % d] with a dictionary [d] of strings: each placeholder is
    replaced by the value under its key, and the first key that [d] lacks
    raises [KeyError]. *)
Fixpoint percent (message : list Segment) (d : list (string * string)) : Error + string :=
  match message with
  | [] => inr EmptyString
  | Lit s :: rest =>
      match percent rest d with
      | inr text => inr (s +:+ text)
      | inl e => inl e
      end
  | Named key :: rest =>
      match getitem key d with
      | None => inl (Exc (KeyError key))
      | Some v =>
          match percent rest d with
          | inr text => inr (v +:+ text)
          | inl e => inl e
          end
      end
  end.

(** ** Data *)

(** A [Css] instance: its primary key, [None] until it is saved, and the
    fields of its row. *)
Record Css := {
  css_pk : option Z;
  css_fields : Asset;
}.

Definition name (css : Css) : string := asset_name (css_fields css).

(** [Css(theme=theme)]. *)
Definition new_css (theme : Theme) : Css :=
  {| css_pk := None;
     css_fields := {| asset_theme := pk theme; asset_name := EmptyString |} |}.

(** How a call of a CSS view ends. *)
Inductive Outcome (A : Type) :=
  | Returned (a : A) (w : World)
  | Raised (e : Error) (w : World).
Arguments Returned {A} a w.
Arguments Raised {A} e w.

(** [redirect(to, **kwargs)] and [self.render(request, context)]; of the
    context the theme and the target are kept. *)
Inductive HttpResponse :=
  | redirect (to : string) (kwargs : list (string * option Z))
  | render (template : string) (theme_pk : Z) (target : option Css).

Definition root_link : string := "misago:admin:appearance:themes:index".

Definition message_404 : string := "Requested theme does not exist.".

(** [redirect_to_theme_assets], as a response of this module. *)
Definition to_theme_assets (theme : Theme) : HttpResponse :=
  match redirect_to_theme_assets theme with
  | Redirect to k => redirect to [("pk", Some k)]
  end.

(** The bound or unbound form as the views read it: [is_valid()],
    [has_changed()], and [save()], which writes the instance to the table
    and gives it its primary key.  [save] is given the [css] the form was
    built on and returns the key and fields of the saved instance. *)
Record CssForm := {
  is_valid : bool;
  has_changed : bool;
  save : option Css → World → Z * Asset * World;
}.

(** A form class, called with [data], [instance] and the [source] given
    as initial value. *)
Definition FormClass : Type :=
  option (list (string * string)) → option Css → option string → CssForm.

Inductive FormView := NewThemeCss | EditThemeCss | NewThemeCssLink | EditThemeCssLink.

Inductive CssView :=
  | MoveThemeCssUp
  | MoveThemeCssDown
  | FormAdmin (self : FormView).

(** The views with a [check_permissions] of their own. *)
Inductive PermissionView := EditTheme | DeleteTheme | ThemeAssetsAdmin.

(** [check_permissions]: the message of the refusal, or [None]. *)
Definition check_permissions (self : PermissionView) (request : Request) (target : Theme)
    : option string :=
  if is_default (fields target) then
    Some match self with
         | EditTheme => "Default theme can't be edited."
         | DeleteTheme => "Default theme can't be deleted."
         | ThemeAssetsAdmin => "Default theme assets can't be edited."
         end
  else None.

(** Python truthiness of [css_pk]. *)
Definition pk_given (css_pk : option Z) : bool :=
  match css_pk with
  | Some k => negb (k =? 0)
  | None => false
  end.

(** [theme.css.get(pk=css_pk, ...)] with a further condition on the row;
    [None] where it raises [ObjectDoesNotExist]. *)
Definition theme_css_get (theme : Theme) (css_pk : option Z) (cond : Asset → bool)
    (w : World) : option Css :=
  match css_pk with
  | Some k =>
      match css w !! k with
      | Some a =>
          if bool_decide (asset_theme a = pk theme) && cond a
          then Some {| css_pk := Some k; css_fields := a |}
          else None
      | None => None
      end
  | None => None
  end.

(** The text of [message_submit], with its placeholder, in each view. *)
Definition message_submit_text (self : FormView) : string :=
  match self with
  | NewThemeCss => "New CSS " +:+ dq +:+ "%(name)s" +:+ dq +:+ " has been saved."
  | EditThemeCss => "CSS " +:+ dq +:+ "%(name)s" +:+ dq +:+ " has been updated."
  | NewThemeCssLink => "New CSS link " +:+ dq +:+ "%(name)s" +:+ dq +:+ " has been saved."
  | EditThemeCssLink => "CSS link " +:+ dq +:+ "%(name)s" +:+ dq +:+ " has been updated."
  end.

(** [message_submit], read as literal parts and placeholders. *)
Definition message_submit (self : FormView) : list Segment :=
  match self with
  | NewThemeCss =>
      [Lit ("New CSS " +:+ dq); Named "name"; Lit (dq +:+ " has been saved.")]
  | EditThemeCss =>
      [Lit ("CSS " +:+ dq); Named "name"; Lit (dq +:+ " has been updated.")]
  | NewThemeCssLink =>
      [Lit ("New CSS link " +:+ dq); Named "name"; Lit (dq +:+ " has been saved.")]
  | EditThemeCssLink =>
      [Lit ("CSS link " +:+ dq); Named "name"; Lit (dq +:+ " has been updated.")]
  end.

(** The message of [EditThemeCss.handle_form] for a form without changes:
    its placeholder is [css]. *)
Definition message_no_changes_text : string :=
  "No changes have been made to " +:+ dq +:+ "%(css)s" +:+ dq +:+ ".".

Definition message_no_changes : list Segment :=
  [Lit ("No changes have been made to " +:+ dq); Named "css"; Lit (dq +:+ ".")].

(** [message_submit] with the name of the saved CSS in place. *)
Definition submitted (self : FormView) (name : string) : string :=
  match self with
  | NewThemeCss => "New CSS " +:+ dq +:+ name +:+ dq +:+ " has been saved."
  | EditThemeCss => "CSS " +:+ dq +:+ name +:+ dq +:+ " has been updated."
  | NewThemeCssLink => "New CSS link " +:+ dq +:+ name +:+ dq +:+ " has been saved."
  | EditThemeCssLink => "CSS link " +:+ dq +:+ name +:+ dq +:+ " has been updated."
  end.

(** The views of CSS links, whose [handle_form] is that of
    [NewThemeCssLink]. *)
Definition is_link (self : FormView) : bool :=
  match self with
  | NewThemeCssLink | EditThemeCssLink => true
  | NewThemeCss | EditThemeCss => false
  end.

Definition template (self : FormView) : string :=
  match self with
  | NewThemeCss | EditThemeCss => "assets/css-editor-form.html"
  | NewThemeCssLink | EditThemeCssLink => "assets/css-link-form.html"
  end.

(** [redirect_to_edit_form]. *)
Definition redirect_to_edit_form (self : FormView) (theme : Theme) (css : Css)
    : HttpResponse :=
  match self with
  | NewThemeCss | EditThemeCss =>
      redirect "misago:admin:appearance:themes:edit-css-file"
        [("pk", Some (pk theme)); ("css_pk", css_pk css)]
  | NewThemeCssLink =>
      redirect "misago:admin:appearance:themes:new-css-link" [("pk", Some (pk theme))]
  | EditThemeCssLink =>
      redirect "misago:admin:appearance:themes:edit-css-link"
        [("pk", Some (pk theme)); ("css_pk", css_pk css)]
  end.

Section Views.

(** What the views take from modules that are not at hand: the lookup of
    the target theme ([generic]), the [url] column and two attributes of
    [Css] ([..models]), the two moves ([.css]), the reading of a source
    file, and the two form classes ([.forms]). *)
Variable get_target_or_none : Request → Z → World → option Theme.
Variable url_isnull : Asset → bool.
Variable source_needs_building : Css → bool.
Variable css_str : Css → string.
Variable move_css_up move_css_down : Theme → option Css → World → Outcome bool.
Variable source_file_read : Css → Error + string.
Variable CssEditorForm CssLinkForm : FormClass.

(** [get_theme_css_or_none], as each view defines or inherits it. *)
Definition get_theme_css_or_none (self : CssView) (theme : Theme) (css_pk : option Z)
    (w : World) : option Css :=
  match self with
  | MoveThemeCssUp | MoveThemeCssDown =>
      if negb (pk_given css_pk) then None
      else theme_css_get theme css_pk (λ _, true) w
  | FormAdmin NewThemeCss | FormAdmin NewThemeCssLink => Some (new_css theme)
  | FormAdmin EditThemeCss => theme_css_get theme css_pk url_isnull w
  | FormAdmin EditThemeCssLink => theme_css_get theme css_pk (λ a, negb (url_isnull a)) w
  end.

(** [str(css)], for the [%s] of the move messages. *)
Definition str (css : option Css) : string :=
  match css with
  | Some c => css_str c
  | None => "None"
  end.

(** [MoveThemeCssUp.real_dispatch] and [MoveThemeCssDown.real_dispatch].
    The move is called with whatever [css] the view was given, [None]
    included; an exception that leaves it leaves the view. *)
Definition move_real_dispatch (up : bool) (request : Request) (theme : Theme)
    (css : option Css) (w : World) : Outcome HttpResponse :=
  if bool_decide (method request = "POST") then
    match (if up then move_css_up else move_css_down) theme css w with
    | Raised e w1 => Raised e w1
    | Returned true w1 =>
        let w2 := clear_theme_cache w1 in
        let w3 := messages_success
                    (dq +:+ str css +:+ dq +:+
                     (if up then " was moved up." else " was moved down.")) w2 in
        Returned (to_theme_assets theme) w3
    | Returned false w1 => Returned (to_theme_assets theme) w1
    end
  else Returned (to_theme_assets theme) w.

(** [self.form]. *)
Definition form (self : FormView) : FormClass :=
  match self with
  | NewThemeCss | EditThemeCss => CssEditorForm
  | NewThemeCssLink | EditThemeCssLink => CssLinkForm
  end.

(** [initialize_form], as each view defines or inherits it. *)
Definition initialize_form (self : FormView) (form : FormClass) (request : Request)
    (theme : Theme) (css : option Css) : Error + CssForm :=
  if bool_decide (method request = "POST") then inr (form (Some (POST request)) css None)
  else
    match self with
    | EditThemeCss =>
        match css with
        | None => inl (AttributeError "source_file")
        | Some c =>
            match source_file_read c with
            | inl e => inl e
            | inr source => inr (form None css (Some source))
            end
        end
    | _ => inr (form None css None)
    end.

(** The body shared by [ThemeCssFormAdmin.handle_form] and the branch of
    [EditThemeCss.handle_form] for a changed form.  The form is built on
    [css], so that after [form.save()] the attributes of [css] are those
    of the saved instance; on [None] the first attribute read raises. *)
Definition save_and_report (message : list Segment) (f : CssForm) (css : option Css)
    (w : World) : Outcome Css :=
  let '(k, a, w1) := save f css w in
  let saved := {| css_pk := Some k; css_fields := a |} in
  match css with
  | None => Raised (AttributeError "source_needs_building") w1
  | Some _ =>
      let w2 := if source_needs_building saved
                then emit (Delay (build_single_theme_css k)) w1
                else clear_theme_cache w1 in
      match percent message [("name", name saved)] with
      | inl e => Raised e w2
      | inr text => Returned saved (messages_success text w2)
      end
  end.

(** [ThemeCssFormAdmin.handle_form]; the value returned here is
    [form.instance] as the call leaves it. *)
Definition ThemeCssFormAdmin_handle_form (self : FormView) (f : CssForm)
    (request : Request) (theme : Theme) (css : option Css) (w : World) : Outcome Css :=
  save_and_report (message_submit self) f css w.

(** [EditThemeCss.handle_form]. *)
Definition EditThemeCss_handle_form (f : CssForm) (request : Request) (theme : Theme)
    (css : option Css) (w : World) : Outcome Css :=
  if has_changed f then save_and_report (message_submit EditThemeCss) f css w
  else
    match css with
    | None => Raised (AttributeError "name") w
    | Some c =>
        match percent message_no_changes [("name", name c)] with
        | inl e => Raised e w
        | inr text => Returned c (messages_info text w)
        end
    end.

(** [NewThemeCssLink.handle_form], which [EditThemeCssLink] inherits. *)
Definition NewThemeCssLink_handle_form (self : FormView) (f : CssForm)
    (request : Request) (theme : Theme) (css : option Css) (w : World) : Outcome Css :=
  match ThemeCssFormAdmin_handle_form self f request theme css w with
  | Raised e w1 => Raised e w1
  | Returned instance w1 =>
      if has_changed f then
        match css_pk instance with
        | Some k =>
            Returned instance
              (clear_theme_cache (emit (Delay (update_remote_css_size k)) w1))
        | None => Returned instance w1
        end
      else Returned instance w1
  end.

(** [self.handle_form], resolved on the class of the view. *)
Definition handle_form (self : FormView) (f : CssForm) (request : Request)
    (theme : Theme) (css : option Css) (w : World) : Outcome Css :=
  match self with
  | NewThemeCss => ThemeCssFormAdmin_handle_form self f request theme css w
  | EditThemeCss => EditThemeCss_handle_form f request theme css w
  | NewThemeCssLink | EditThemeCssLink =>
      NewThemeCssLink_handle_form self f request theme css w
  end.

(** [ThemeCssFormAdmin.real_dispatch].  [handle_form] returns [None] in
    every view, so the response is one of the two redirections. *)
Definition form_real_dispatch (self : FormView) (request : Request) (theme : Theme)
    (css : option Css) (w : World) : Outcome HttpResponse :=
  match initialize_form self (form self) request theme css with
  | inl e => Raised e w
  | inr f =>
      if bool_decide (method request = "POST") && is_valid f then
        match handle_form self f request theme css w with
        | Raised e w1 => Raised e w1
        | Returned instance w1 =>
            if bool_decide ("stay" ∈ (POST request).*1)
            then Returned (redirect_to_edit_form self theme instance) w1
            else Returned (to_theme_assets theme) w1
        end
      else Returned (render (template self) (pk theme) css) w
  end.

(** [self.real_dispatch], resolved on the class of the view. *)
Definition real_dispatch (self : CssView) (request : Request) (theme : Theme)
    (css : option Css) (w : World) : Outcome HttpResponse :=
  match self with
  | MoveThemeCssUp => move_real_dispatch true request theme css w
  | MoveThemeCssDown => move_real_dispatch false request theme css w
  | FormAdmin v => form_real_dispatch v request theme css w
  end.

(** [ThemeCssAdmin.wrapped_dispatch]. *)
Definition wrapped_dispatch (self : CssView) (request : Request) (pk : Z)
    (css_pk : option Z) (w : World) : Outcome HttpResponse :=
  match get_target_or_none request pk w with
  | None => Returned (redirect root_link []) (messages_error message_404 w)
  | Some theme =>
      match check_permissions ThemeAssetsAdmin request theme with
      | Some error => Returned (redirect root_link []) (messages_error error w)
      | None =>
          let css := get_theme_css_or_none self theme css_pk w in
          if pk_given css_pk && negb (bool_decide (is_Some css)) then
            Returned (to_theme_assets theme)
              (messages_error "Requested CSS could not be found in the theme." w)
          else real_dispatch self request theme css w
      end
  end.

End Views.

(** ** New themes *)

(** The call that [NewTheme.initialize_form] makes to the form class. *)
Inductive ThemeFormCall :=
  | Bound (data files : list (string * string))
  | Unbound (initial : list (string * Z)).

(** [QueryDict.get(key)]: the last value given under [key], if any. *)
Definition querydict_get (key : string) (d : list (string * string)) : option string :=
  last (getlist key d).

(** [NewTheme.initialize_form]; [GET] is [request.GET] and [py_int] is
    Python's [int] on strings.  [int(None)] raises [TypeError], which
    is caught like the [ValueError] of a string that is no integer. *)
Definition NewTheme_initialize_form (py_int : string → option Z) (request : Request)
    (GET : list (string * string)) : ThemeFormCall :=
  if bool_decide (method request = "POST") then Bound (POST request) (FILES request)
  else
    match querydict_get "parent" GET with
    | Some v =>
        match py_int v with
        | Some n => Unbound [("parent", n)]
        | None => Unbound []
        end
    | None => Unbound []
    end.

(** ** Concrete views *)

(** A form that is valid and without changes, and whose [save] would
    write the row back under key 3. *)
Definition unchanged_form : CssForm :=
  {| is_valid := true; has_changed := false;
     save := λ css w,
       (3, {| asset_theme := 1; asset_name := "site.css" |}, w) |}.

Definition site_css : Css :=
  {| css_pk := Some 3; css_fields := {| asset_theme := 1; asset_name := "site.css" |} |}.

Definition stay_request : Request :=
  {| method := "POST"; POST := [("name", "site.css"); ("stay", "1")]; FILES := [] |}.

(** A theme table with a default theme 2 and a custom theme 1, whose
    stylesheet 3 is a file and whose stylesheet 4 is a link; stylesheet 5
    belongs to the default theme. *)
Definition css_world : World :=
  {| themes :=
       {[ 1 := {| theme_name := "Dark"; is_default := false; is_active := false |};
          2 := {| theme_name := "Light"; is_default := true; is_active := true |} ]};
     css :=
       {[ 3 := {| asset_theme := 1; asset_name := "site.css" |};
          4 := {| asset_theme := 1; asset_name := "font" |};
          5 := {| asset_theme := 2; asset_name := "base.css" |} ]};
     media := ∅; effects := [] |}.

Definition lookup_theme (request : Request) (k : Z) (w : World) : option Theme :=
  (λ r, {| pk := k; fields := r |}) <$> themes w !! k.

Definition is_file (a : Asset) : bool := bool_decide (asset_name a ≠ "font").

(** A form that is valid and changed; its [save] writes a row of theme 1
    under the key of the instance, or under the fresh key 6. *)
Definition saving_form : CssForm :=
  {| is_valid := true; has_changed := true;
     save := λ instance w,
       let k := default 6 (instance ≫= css_pk) in
       let a := {| asset_theme := 1; asset_name := "print.css" |} in
       (k, a, {| themes := themes w; css := <[k:=a]> (css w);
                 media := media w; effects := effects w |}) |}.

(** Stand-ins for what the views take from the other modules. *)
Definition never_builds (c : Css) : bool := false.

(** A move that succeeds on a CSS and fails on [None], where the
    attributes of the CSS cannot be read. *)
Definition move_done (theme : Theme) (instance : option Css) (w : World) : Outcome bool :=
  match instance with
  | Some _ => Returned true w
  | None => Raised (AttributeError "order") w
  end.

Definition empty_source (c : Css) : Error + string := inr EmptyString.

Definition unchanged_forms : FormClass := λ _ _ _, unchanged_form.

Definition saving_forms : FormClass := λ _ _ _, saving_form.

Definition theme_dark : Theme :=
  {| pk := 1;
     fields := {| theme_name := "Dark"; is_default := false; is_active := false |} |}.

Definition move_request : Request := {| method := "POST"; POST := []; FILES := [] |}.

Definition get_request : Request := {| method := "GET"; POST := []; FILES := [] |}.

Definition font_css : Css :=
  {| css_pk := Some 4; css_fields := {| asset_theme := 1; asset_name := "font" |} |}.

(** The views over these stand-ins: the editor form comes back without
    changes, the link form saves. *)
Definition site_dispatch : CssView → Request → Z → option Z → World → Outcome HttpResponse :=
  wrapped_dispatch lookup_theme is_file never_builds name move_done move_done
    empty_source unchanged_forms saving_forms.

Definition site_form_dispatch
    : FormView → Request → Theme → option Css → World → Outcome HttpResponse :=
  form_real_dispatch never_builds empty_source unchanged_forms saving_forms.

(** A query string that names two parents. *)
Definition two_parents : list (string * string) := [("parent", "7"); ("parent", "2")].

End CssViews.

(* ===================================================================== *)
(** * Contributions of plugins to the GraphQL registry                    *)
(* ===================================================================== *)

Module HooksMore.
Import Hooks.

Section Contributions.

Context {Directive : Type}.

(** A run of item assignments on [graphql_directives_hook], first to
    last. *)
Definition setitems (regs : list (string * Directive)) (hook : gmap string Directive)
    : Registration :=
  foldl (λ acc r,
           match acc with
           | Stored d => setitem r.1 r.2 d
           | RegistrationError n => RegistrationError n
           end)
    (Stored hook) regs.

End Contributions.

End HooksMore.

(* ===================================================================== *)
(** * Properties of the theme admin views                                 *)
(* ===================================================================== *)

Module ThemesFacts.
Import Themes.

(** ** Activating a theme *)

Lemma themes_set_theme_as_active request theme w :
  themes (set_theme_as_active request theme w)
  = update_pk_active (pk theme) (update_all_inactive (themes w)).
Proof. reflexivity. Qed.

Lemma lookup_activated k j (t : gmap Z ThemeRow) :
  update_pk_active k (update_all_inactive t) !! j
  = (if decide (k = j) then set_is_active true else set_is_active false) <$> t !! j.
Proof.
  unfold update_pk_active, update_all_inactive.
  rewrite lookup_alter.
  destruct (decide (k = j)) as [->|Hne]; rewrite lookup_fmap; [|done].
  by destruct (t !! j).
Qed.

Lemma active_in_activated k j (t : gmap Z ThemeRow) :
  active_in (update_pk_active k (update_all_inactive t)) j ↔ j = k ∧ k ∈ dom t.
Proof.
  unfold active_in. rewrite elem_of_dom. setoid_rewrite lookup_activated.
  split.
  - intros (r & Hr & Hact). destruct (decide (k = j)) as [->|Hne].
    + split; [done|]. destruct (t !! j); [eauto | done].
    + destruct (t !! j) as [r0|]; by simplify_eq/=.
  - intros [-> [r0 Hr0]]. rewrite Hr0, decide_True by done.
    eexists; split; [done | done].
Qed.

(** C8, as amended.  After [set_theme_as_active(request, theme)], whatever
    the table held before: a row is marked active exactly when its primary
    key is the given theme's, so every other theme is inactive and at most
    one theme is active; the given theme is active exactly when its row
    is in the table; no row is added or removed.  [button_action] leaves
    the table as [set_theme_as_active] made it. *)
Theorem set_theme_as_active_single_active request theme w :
  let t' := themes (set_theme_as_active request theme w) in
  (∀ k r, t' !! k = Some r → (is_active r = true ↔ k = pk theme)) ∧
  (∀ k, k ≠ pk theme → ¬ active_in t' k) ∧
  (∀ k1 k2, active_in t' k1 → active_in t' k2 → k1 = k2) ∧
  (active_in t' (pk theme) ↔ pk theme ∈ dom (themes w)) ∧
  dom t' = dom (themes w) ∧
  themes (button_action request theme w) = t'.
Proof.
  cbv zeta. rewrite themes_set_theme_as_active.
  split; [|split; [|split; [|split; [split|split; [|done]]]]].
  - intros k r Hr. split.
    + intros Hact. apply (active_in_activated (pk theme) k (themes w)).
      by exists r.
    + intros ->. rewrite lookup_activated, decide_True in Hr by done.
      destruct (themes w !! pk theme); by simplify_eq/=.
  - intros k Hne [? _]%active_in_activated. done.
  - intros k1 k2 [-> _]%active_in_activated [-> _]%active_in_activated. done.
  - by intros [_ ?]%active_in_activated.
  - intros ?. by apply active_in_activated.
  - unfold update_pk_active, update_all_inactive.
    by rewrite dom_alter_L, dom_fmap_L.
Qed.

(** C8, as stated, fails when the given theme has no row in the table
    (it was never saved, or it was deleted in the meantime): the filter
    matches nothing, and no theme at all is active afterwards. *)
Lemma set_theme_as_active_missing_row :
  ¬ active_in (themes (set_theme_as_active activate_request theme_1 world_without_1))
      (pk theme_1)
  ∧ is_active <$> themes world_without_1 !! 2 = Some true
  ∧ is_active <$> themes (set_theme_as_active activate_request theme_1 world_without_1) !! 2
    = Some false.
Proof.
  split; [|split; reflexivity].
  rewrite themes_set_theme_as_active, active_in_activated.
  intros [_ Hin]. revert Hin. unfold world_without_1; simpl.
  rewrite dom_singleton_L. set_solver.
Qed.

(** ** Deleting assets *)

Lemma size_list_to_set_le (l : list Z) :
  (size (list_to_set l : gset Z) ≤ length l)%nat.
Proof.
  induction l as [|x l IH].
  - by rewrite list_to_set_nil, size_empty.
  - rewrite list_to_set_cons, size_union_alt, size_singleton. simpl.
    pose proof (subseteq_size (list_to_set l ∖ {[x]} : gset Z) (list_to_set l)) as Hle.
    assert (list_to_set l ∖ {[x]} ⊆ (list_to_set l : gset Z)) as Hsub
      by (by intros y [? _]%elem_of_difference).
    specialize (Hle Hsub). lia.
Qed.

Lemma table_with_table attr attr' t w :
  table attr' (with_table attr t w) = if decide (attr' = attr) then t else table attr' w.
Proof. by destruct attr, attr'. Qed.

Lemma table_emit attr e w : table attr (emit e w) = table attr w.
Proof. by destruct attr. Qed.

(** One [delete_asset] leaves every other row of every table alone. *)
Lemma delete_asset_other queryset item w attr k :
  k ≠ item →
  table attr (delete_asset queryset item w) !! k = table attr w !! k.
Proof.
  intros Hne. unfold delete_asset.
  destruct (table (qs_attr queryset) w !! item) as [a|]; [|done].
  case_bool_decide; [|done].
  rewrite table_with_table. case_decide as Heq; [|done].
  subst attr. by rewrite lookup_delete_ne.
Qed.

(** One [delete_asset] adds no row. *)
Lemma delete_asset_subseteq queryset item w attr :
  table attr (delete_asset queryset item w) ⊆ table attr w.
Proof.
  unfold delete_asset.
  destruct (table (qs_attr queryset) w !! item) as [a|]; [|done].
  case_bool_decide; [|done].
  rewrite table_with_table. case_decide as Heq; [|done].
  subst attr. apply delete_subseteq.
Qed.

(** The loop of [action], over the items in any order. *)
Lemma delete_loop_other queryset (items : list Z) w attr k :
  k ∉ items →
  table attr (foldr (delete_asset queryset) w items) !! k = table attr w !! k.
Proof.
  induction items as [|item items IH]; simpl; [done|].
  intros [Hne Hk]%not_elem_of_cons.
  rewrite delete_asset_other by done. by apply IH.
Qed.

Lemma delete_loop_subseteq queryset (items : list Z) w attr :
  table attr (foldr (delete_asset queryset) w items) ⊆ table attr w.
Proof.
  induction items as [|item items IH]; simpl; [done|].
  etrans; [apply delete_asset_subseteq | apply IH].
Qed.

(** The loop touches the queryset's table only. *)
Lemma delete_loop_other_table queryset (items : list Z) w attr :
  attr ≠ qs_attr queryset →
  table attr (foldr (delete_asset queryset) w items) = table attr w.
Proof.
  intros Hne. induction items as [|item items IH]; simpl; [done|].
  rewrite <- IH. unfold delete_asset.
  destruct (table (qs_attr queryset) _ !! item) as [a|]; [|done].
  case_bool_decide; [|done].
  rewrite table_with_table. by rewrite decide_False.
Qed.

Lemma deleted_same attr w k : k ∉ deleted attr w w.
Proof. unfold deleted. by intros [? ?]%elem_of_difference. Qed.

Lemma deleted_loop queryset (items : gset Z) w attr :
  deleted attr w (set_fold (delete_asset queryset) w items) ⊆ items.
Proof.
  unfold deleted, set_fold; simpl. intros k [Hin Hout]%elem_of_difference.
  destruct (decide (k ∈ items)) as [|Hk]; [done|]. exfalso. apply Hout.
  apply elem_of_dom. rewrite delete_loop_other by (by rewrite elem_of_elements).
  by apply elem_of_dom.
Qed.

Section DeleteFacts.

Variable py_int : string → option Z.

Lemma clean_items_list_Some request items :
  clean_items_list py_int request = Some items →
  ∃ ns, mapM py_int (take 20 (getlist "item" (POST request))) = Some ns
        ∧ items = list_to_set ns.
Proof.
  unfold clean_items_list. destruct (mapM _ _) as [ns|]; [|done].
  intros [= <-]. eauto.
Qed.

Lemma clean_items_list_size request items :
  clean_items_list py_int request = Some items → (size items ≤ 20)%nat.
Proof.
  intros (ns & Hns & ->)%clean_items_list_Some.
  apply mapM_Some_1, Forall2_length in Hns.
  rewrite length_take in Hns.
  pose proof (size_list_to_set_le ns). lia.
Qed.

Lemma deleted_DeleteThemeAssets_action self request theme w attr k :
  k ∈ deleted attr w (DeleteThemeAssets_action py_int self request theme w) →
  ∃ items, clean_items_list py_int request = Some items ∧ k ∈ items.
Proof.
  unfold DeleteThemeAssets_action.
  destruct (clean_items_list py_int request) as [items|] eqn:Hitems.
  - case_decide.
    + by intros ?%deleted_same.
    + unfold messages_success, deleted. rewrite table_emit.
      intros Hk. exists items. split; [done|].
      eapply deleted_loop. exact Hk.
  - by intros ?%deleted_same.
Qed.

(** What [real_dispatch] does to the tables on a delete view is what the
    inherited [action] does, when the request is a POST, and nothing
    otherwise. *)
Lemma table_real_dispatch_delete self request theme w attr :
  table attr (world_of (real_dispatch py_int (Delete self) request theme w))
  = if bool_decide (method request = "POST")
    then table attr (DeleteThemeAssets_action py_int self request theme w)
    else table attr w.
Proof.
  unfold real_dispatch. case_bool_decide; [|done].
  destruct self; simpl; [|done].
  unfold DeleteThemeCss_action, clear_theme_cache. by rewrite table_emit.
Qed.

Lemma deleted_real_dispatch self request theme w attr k :
  k ∈ deleted attr w (world_of (real_dispatch py_int (Delete self) request theme w)) →
  ∃ items, clean_items_list py_int request = Some items ∧ k ∈ items.
Proof.
  unfold deleted at 1. rewrite table_real_dispatch_delete. case_bool_decide.
  - apply deleted_DeleteThemeAssets_action.
  - by intros ?%deleted_same.
Qed.

Lemma DeleteThemeAssets_action_None self request theme w :
  clean_items_list py_int request = None →
  DeleteThemeAssets_action py_int self request theme w = w.
Proof. unfold DeleteThemeAssets_action. by intros ->. Qed.

(** C9.  Whatever is posted to a [DeleteThemeAssets] view, at most twenty
    distinct assets are deleted by the request, all from the table of the
    view, each of them the integer value of one of the first twenty
    posted items; no asset is added; and when one of those twenty is not
    an integer, [clean_items_list] returns [None] and every asset table
    is left exactly as it was. *)
Theorem delete_assets_first_twenty self request theme w :
  let w' := world_of (real_dispatch py_int (Delete self) request theme w) in
  let posted := take 20 (getlist "item" (POST request)) in
  (∀ attr, (size (deleted attr w w') ≤ 20)%nat) ∧
  (∀ attr k, k ∈ deleted attr w w' → ∃ s, s ∈ posted ∧ py_int s = Some k) ∧
  (∀ attr, table attr w' ⊆ table attr w) ∧
  (∀ attr, attr ≠ queryset_attr self → table attr w' = table attr w) ∧
  ((∃ s, s ∈ posted ∧ py_int s = None) →
     clean_items_list py_int request = None ∧ ∀ attr, table attr w' = table attr w).
Proof.
  cbv zeta. split; [|split; [|split; [|split]]].
  - intros attr.
    destruct (clean_items_list py_int request) as [items|] eqn:Hitems.
    + etrans; [|by apply (clean_items_list_size request items)].
      apply subseteq_size. intros k Hk.
      apply deleted_real_dispatch in Hk as (items' & ? & ?). congruence.
    + assert (deleted attr w
                (world_of (real_dispatch py_int (Delete self) request theme w)) = ∅)
        as ->; [|by rewrite size_empty; lia].
      apply set_eq. intros k. split; [|by intros ?%elem_of_empty].
      intros (items' & ? & ?)%deleted_real_dispatch. congruence.
  - intros attr k (items & Hitems & Hk)%deleted_real_dispatch.
    apply clean_items_list_Some in Hitems as (ns & Hns & ->).
    apply elem_of_list_to_set in Hk. apply mapM_Some_1 in Hns.
    induction Hns as [|s n posted ns Hs _ IH]; [by apply elem_of_nil in Hk|].
    apply elem_of_cons in Hk as [->|Hk].
    + exists s. split; [left | done].
    + destruct (IH Hk) as (s' & ? & ?). exists s'. split; [by right | done].
  - intros attr. rewrite table_real_dispatch_delete.
    case_bool_decide; [|done].
    unfold DeleteThemeAssets_action.
    destruct (clean_items_list py_int request) as [items|]; [|done].
    case_decide; [done|]. unfold messages_success. rewrite table_emit.
    apply delete_loop_subseteq.
  - intros attr Hne. rewrite table_real_dispatch_delete.
    case_bool_decide; [|done].
    unfold DeleteThemeAssets_action.
    destruct (clean_items_list py_int request) as [items|]; [|done].
    case_decide; [done|]. unfold messages_success. rewrite table_emit.
    by apply delete_loop_other_table.
  - intros (s & Hs & Hnone).
    assert (clean_items_list py_int request = None) as Hclean.
    { unfold clean_items_list. rewrite mapM_None_2; [done|].
      apply Exists_exists. eauto. }
    split; [done|]. intros attr. rewrite table_real_dispatch_delete.
    case_bool_decide; [|done].
    by rewrite DeleteThemeAssets_action_None.
Qed.

End DeleteFacts.

(** ** Uploading assets *)

Lemma effects_messages_errors (errors : list string) w :
  effects (foldl (λ acc error, messages_error error acc) w errors)
  = effects w ++ (Message Error <$> errors).
Proof.
  revert w. induction errors as [|error errors IH]; intros w; simpl.
  - by rewrite app_nil_r.
  - rewrite IH. simpl. by rewrite <- app_assoc.
Qed.

Lemma tables_messages_errors (errors : list string) w :
  themes (foldl (λ acc error, messages_error error acc) w errors) = themes w
  ∧ css (foldl (λ acc error, messages_error error acc) w errors) = css w
  ∧ media (foldl (λ acc error, messages_error error acc) w errors) = media w.
Proof.
  revert w. induction errors as [|error errors IH]; intros w; simpl; [done|].
  destruct (IH (messages_error error w)) as (-> & -> & ->). done.
Qed.

Lemma effects_upload_save self f theme w assets :
  cleaned_assets f = Some assets → assets ≠ [] →
  effects (upload_save self f theme w) = effects w ++ saved self theme assets.
Proof.
  intros Hf Hne. unfold upload_save. rewrite Hf.
  destruct assets as [|a assets]; [done|]. simpl.
  by rewrite <- !app_assoc.
Qed.

(** C10.  When at least one uploaded asset passed cleaning,
    [UploadThemeAssets.action] saves the form, queues the rebuild of the
    theme's CSS and emits the success message, whether the form is valid
    or not.  On an invalid form whose errors are those of its assets, the
    same request first emits the partial-success notice and one error
    message per error, then saves, queues and emits the success message. *)
Theorem upload_action_saves_cleaned_assets self request theme w assets :
  let f := form self request theme in
  cleaned_assets f = Some assets → assets ≠ [] →
  (is_valid f = true →
     ∃ w', UploadThemeAssets_action self request theme w = Return tt w'
           ∧ effects w' = effects w ++ saved self theme assets) ∧
  (is_valid f = false → ∀ errors, errors_assets f = Some errors →
     ∃ w', UploadThemeAssets_action self request theme w = Return tt w'
           ∧ effects w' = effects w
                          ++ [Message Info message_partial_success]
                          ++ (Message Error <$> errors)
                          ++ saved self theme assets
           ∧ (∀ error, error ∈ errors → Message Error error ∈ effects w')
           ∧ Message Success (message_success self) ∈ effects w'
           ∧ FormSave (pk theme) assets ∈ effects w'
           ∧ Delay (build_theme_css (pk theme)) ∈ effects w').
Proof.
  cbv zeta. intros Hassets Hne. split.
  - intros Hvalid. unfold UploadThemeAssets_action. rewrite Hvalid. simpl.
    eexists; split; [done|]. by apply effects_upload_save.
  - intros Hinvalid errors Herrors. unfold UploadThemeAssets_action.
    rewrite Hinvalid, Herrors. simpl.
    eexists; split; [done|].
    assert (truthy (cleaned_assets (form self request theme)) = true) as ->.
    { rewrite Hassets. by destruct assets. }
    erewrite effects_upload_save by done.
    rewrite effects_messages_errors. simpl.
    rewrite <- !app_assoc. split; [done|].
    split; [|split; [|split]].
    + intros error Hin. rewrite !elem_of_app. right; right; left.
      apply list_elem_of_fmap. eauto.
    + rewrite !elem_of_app. do 3 right. unfold saved. set_solver.
    + rewrite !elem_of_app. do 3 right. unfold saved. set_solver.
    + rewrite !elem_of_app. do 3 right. unfold saved. set_solver.
Qed.

Lemma delete_assets_first_twenty_witness :
  (∃ s, s ∈ take 20 (getlist "item" (POST delete_request_bad)) ∧ int_ascii s = None)
  ∧ clean_items_list int_ascii delete_request_bad = None
  ∧ ∀ attr,
      table attr (world_of (real_dispatch int_ascii (Delete DeleteThemeCss)
                              delete_request_bad theme_1 world_with_css_3))
      = table attr world_with_css_3.
Proof.
  assert (∃ s, s ∈ take 20 (getlist "item" (POST delete_request_bad)) ∧ int_ascii s = None)
    as Hbad.
  { exists "x". split; [|reflexivity]. right. left. }
  split; [exact Hbad|].
  exact (proj2 (proj2 (proj2 (proj2 (delete_assets_first_twenty int_ascii DeleteThemeCss
                                       delete_request_bad theme_1 world_with_css_3))))
           Hbad).
Defined.

Example delete_assets_good_request :
  css (world_of (real_dispatch int_ascii (Delete DeleteThemeCss) delete_request_good
                   theme_1 world_with_css_3)) = ∅
  ∧ effects (world_of (real_dispatch int_ascii (Delete DeleteThemeCss) delete_request_good
                         theme_1 world_with_css_3))
    = [Message Success "Selected CSS files have been deleted."; ClearThemeCache].
Proof. split; by vm_compute. Qed.

Lemma upload_action_saves_cleaned_assets_witness :
  ∃ w', UploadThemeAssets_action upload_css_view upload_request theme_1 world_with_css_3
        = Return tt w'
        ∧ effects w'
          = effects world_with_css_3
            ++ [Message Info message_partial_success]
            ++ (Message Error <$> ["notes.txt is not a CSS file."])
            ++ saved upload_css_view theme_1 ["site.css"]
        ∧ (∀ error, error ∈ ["notes.txt is not a CSS file."] →
             Message Error error ∈ effects w')
        ∧ Message Success (message_success upload_css_view) ∈ effects w'
        ∧ FormSave (pk theme_1) ["site.css"] ∈ effects w'
        ∧ Delay (build_theme_css (pk theme_1)) ∈ effects w'.
Proof.
  refine (proj2 (upload_action_saves_cleaned_assets upload_css_view upload_request theme_1
                   world_with_css_3 ["site.css"] _ _) _ _ _);
    [reflexivity | discriminate | reflexivity | reflexivity].
Defined.

End ThemesFacts.

(* ===================================================================== *)
(** * Properties of the hook registry                                     *)
(* ===================================================================== *)

Module HooksFacts.
Import Hooks.

(** ** The directive dictionary *)

Section RegistryFacts.

Context {Directive : Type}.
Implicit Types (hook : gmap string Directive) (d : Directive).

Lemma setitem_twice_Stored name d1 d2 hook :
  setitem_twice name d1 name d2 hook = Stored (<[name := d2]> hook).
Proof. unfold setitem_twice, setitem. by rewrite insert_insert_eq. Qed.

(** C7.  Registering a directive under a name that is already bound
    never raises: the second registration replaces the first.  So of
    the two behaviours, raising [RegistrationError] or overwriting,
    exactly one holds for every pair of registrations under one name,
    and it is overwriting; the other names keep their directives. *)
Theorem directive_collision_overwrites name d1 d2 hook :
  let r := setitem_twice name d1 name d2 hook in
  ((raises r ∧ ¬ binds r name d2) ∨ (binds r name d2 ∧ ¬ raises r))
  ∧ binds r name d2
  ∧ ¬ raises r
  ∧ binds (setitem name d1 hook) name d1
  ∧ ∀ other, other ≠ name →
      ∃ hook', r = Stored hook' ∧ hook' !! other = hook !! other.
Proof.
  cbv zeta. rewrite setitem_twice_Stored.
  assert (binds (Stored (<[name:=d2]> hook)) name d2) as Hbinds.
  { eexists; split; [done|]. apply lookup_insert_eq. }
  assert (¬ raises (Stored (<[name:=d2]> hook))) as Hraises.
  { by intros [n ?]. }
  split; [by right|]. split; [done|]. split; [done|]. split.
  - eexists; split; [done|]. apply lookup_insert_eq.
  - intros other Hne. eexists; split; [done|]. by apply lookup_insert_ne.
Qed.

End RegistryFacts.

(** ** The order of the registered callables *)

Section Order.

Context {C : Type}.
Implicit Types (e x y : Entry C) (l : list (Entry C)).

Lemma filter_nil_Forall (P : Entry C → Prop) `{!∀ x, Decision (P x)} l :
  Forall (λ x, ¬ P x) l → filter P l = [].
Proof.
  induction 1 as [|x l Hx _ IH]; [done|]. by rewrite filter_cons_False.
Qed.

Lemma insert_by_priority_perm e l : insert_by_priority e l ≡ₚ e :: l.
Proof.
  induction l as [|x l IH]; simpl; [done|].
  case_bool_decide; [done|]. rewrite IH. apply Permutation_swap.
Qed.

Lemma insert_by_priority_sorted e l :
  StronglySorted by_priority l → StronglySorted by_priority (insert_by_priority e l).
Proof.
  induction 1 as [|x l Hl IH Hx]; simpl.
  - repeat constructor.
  - case_bool_decide as Hlt.
    + constructor; [by constructor|]. constructor; [unfold by_priority; lia|].
      eapply Forall_impl; [exact Hx|]. unfold by_priority. intros; simpl in *; lia.
    + constructor; [done|]. rewrite insert_by_priority_perm.
      constructor; [unfold by_priority; lia | done].
Qed.

(** The new entry goes behind the entries of its own priority. *)
Lemma insert_by_priority_filter e l p :
  StronglySorted by_priority l →
  filter (λ x, priority x = p) (insert_by_priority e l)
  = filter (λ x, priority x = p) l ++ filter (λ x, priority x = p) [e].
Proof.
  induction 1 as [|x l Hl IH Hx]; simpl; [done|].
  case_bool_decide as Hlt.
  - rewrite (filter_cons _ e). rewrite (filter_cons _ e []), filter_nil.
    case_decide as Hp; [|by rewrite app_nil_r].
    assert (filter (λ x0, priority x0 = p) (x :: l) = []) as ->; [|done].
    apply filter_nil_Forall. constructor; [lia|].
    eapply Forall_impl; [exact Hx|]. unfold by_priority. intros; simpl in *; lia.
  - rewrite !(filter_cons _ x). case_decide; rewrite IH; done.
Qed.

Lemma length_insert_by_priority e l :
  length (insert_by_priority e l) = S (length l).
Proof.
  induction l as [|x l IH]; simpl; [done|].
  case_bool_decide; simpl; by rewrite ?IH.
Qed.

Lemma insert_all_sorted entries l :
  StronglySorted by_priority l → StronglySorted by_priority (insert_all entries l).
Proof.
  revert l. induction entries as [|e entries IH]; intros l Hl; simpl; [done|].
  by apply IH, insert_by_priority_sorted.
Qed.

Lemma insert_all_perm entries l : insert_all entries l ≡ₚ l ++ entries.
Proof.
  revert l. induction entries as [|e entries IH]; intros l; simpl.
  - by rewrite app_nil_r.
  - rewrite IH, insert_by_priority_perm. apply Permutation_middle.
Qed.

Lemma insert_all_filter entries l p :
  StronglySorted by_priority l →
  filter (λ x, priority x = p) (insert_all entries l)
  = filter (λ x, priority x = p) l ++ filter (λ x, priority x = p) entries.
Proof.
  revert l. induction entries as [|e entries IH]; intros l Hl; simpl.
  - by rewrite filter_nil, app_nil_r.
  - rewrite IH by (by apply insert_by_priority_sorted).
    rewrite insert_by_priority_filter by done.
    by rewrite <- app_assoc, (filter_app _ [e] entries).
Qed.

(** Sorted without ties is strictly sorted. *)
Lemma sorted_distinct_strict l :
  StronglySorted by_priority l → NoDup (priority <$> l) →
  StronglySorted by_priority_strict l.
Proof.
  induction 1 as [|x l Hl IH Hx]; intros Hnd; [constructor|].
  rewrite fmap_cons in Hnd. apply NoDup_cons in Hnd as [Hnotin Hnd].
  constructor; [by apply IH|].
  rewrite Forall_forall in Hx |- *. intros y Hy.
  specialize (Hx y Hy). unfold by_priority in Hx. unfold by_priority_strict.
  assert (priority x ≠ priority y); [|lia].
  intros Heq. apply Hnotin. rewrite Heq. apply list_elem_of_fmap. eauto.
Qed.

(** What the chain of a fresh hook is after a list of registrations:
    the registered entries, in ascending priority, those of equal
    priority in registration order. *)
Lemma insert_all_stable_sort entries :
  insert_all entries [] ≡ₚ entries
  ∧ StronglySorted by_priority (insert_all entries [])
  ∧ (∀ p, filter (λ x, priority x = p) (insert_all entries [])
          = filter (λ x, priority x = p) entries)
  ∧ (NoDup (priority <$> entries) →
     StronglySorted by_priority_strict (insert_all entries [])).
Proof.
  assert (StronglySorted by_priority (insert_all entries [])) as Hsorted
    by (apply insert_all_sorted; constructor).
  split; [by rewrite insert_all_perm|]. split; [done|]. split.
  - intros p. rewrite insert_all_filter by constructor. by rewrite filter_nil.
  - intros Hnd. apply sorted_distinct_strict; [done|].
    by rewrite insert_all_perm.
Qed.

(** The entries of a list of registrations carry the registration
    numbers from [n] on, in order. *)
Lemma seq_entries_from default_priority n (regs : list (C * option Z)) e :
  e ∈ entries_from default_priority n regs → (n ≤ seq e < n + length regs)%nat.
Proof.
  revert n. induction regs as [|r regs IH]; intros n; simpl.
  - by intros ?%elem_of_nil.
  - intros [->|He]%elem_of_cons; [simpl; lia|].
    apply IH in He. lia.
Qed.

Lemma elem_of_entries_from default_priority n (regs : list (C * option Z)) e :
  e ∈ entries_from default_priority n regs →
  ∃ r, r ∈ regs ∧ callable e = r.1 ∧ priority e = default default_priority r.2.
Proof.
  revert n. induction regs as [|r regs IH]; intros n; simpl.
  - by intros ?%elem_of_nil.
  - intros [->|He]%elem_of_cons.
    + exists r. split; [left | done].
    + destruct (IH _ He) as (r' & ? & ?). exists r'. split; [by right | done].
Qed.

Lemma entries_from_sorted default_priority n (regs : list (C * option Z)) :
  StronglySorted by_seq (entries_from default_priority n regs).
Proof.
  revert n. induction regs as [|r regs IH]; intros n; simpl; constructor; [done|].
  apply Forall_forall. intros e He%seq_entries_from. unfold by_seq; simpl. lia.
Qed.

(** Registering a list on a sequence that holds [n] entries. *)
Lemma foldl_insert_entries default_priority (regs : list (C * option Z)) l :
  foldl (λ acc r, insert_by_priority (entry default_priority r.1 r.2 (length acc)) acc)
    l regs
  = insert_all (entries_from default_priority (length l) regs) l.
Proof.
  revert l. induction regs as [|r regs IH]; intros l; simpl; [done|].
  by rewrite IH, length_insert_by_priority.
Qed.

(** *** The order read off the registrations *)

Lemma insert_by_priority_then_seq e l :
  StronglySorted by_priority_then_seq l →
  Forall (λ x, (seq x < seq e)%nat) l →
  StronglySorted by_priority_then_seq (insert_by_priority e l).
Proof.
  induction 1 as [|x l Hl IH Hx]; intros Hseq; simpl.
  - repeat constructor.
  - apply Forall_cons in Hseq as [Hxe Hseq]. case_bool_decide as Hlt.
    + constructor; [by constructor|]. constructor; [by left|].
      eapply Forall_impl; [exact Hx|].
      intros y Hxy. left. destruct Hxy as [?|[? ?]]; lia.
    + constructor; [by apply IH|]. rewrite insert_by_priority_perm.
      constructor; [|done]. unfold by_priority_then_seq. lia.
Qed.

Lemma insert_all_then_seq entries l :
  StronglySorted by_priority_then_seq l →
  StronglySorted by_seq entries →
  (∀ x y, x ∈ l → y ∈ entries → (seq x < seq y)%nat) →
  StronglySorted by_priority_then_seq (insert_all entries l).
Proof.
  revert l. induction entries as [|e entries IH]; intros l Hl Hseq Hlt; simpl; [done|].
  apply StronglySorted_inv in Hseq as [Hseq He].
  apply IH; [|done|].
  - apply insert_by_priority_then_seq; [done|].
    apply Forall_forall. intros x Hx. apply Hlt; [done | left].
  - intros x y Hx Hy. rewrite insert_by_priority_perm in Hx.
    apply elem_of_cons in Hx as [->|Hx].
    + rewrite Forall_forall in He. by apply He.
    + apply Hlt; [done | by right].
Qed.

Lemma fmap_seq_entries_from default_priority n (regs : list (C * option Z)) :
  seq <$> entries_from default_priority n regs = List.seq n (length regs).
Proof.
  revert n. induction regs as [|r regs IH]; intros n; simpl; [done|].
  by rewrite IH.
Qed.

(** Each entry holds the callable and the priority of the registration
    whose number it carries. *)
Lemma entries_from_lookup default_priority n (regs : list (C * option Z)) e :
  e ∈ entries_from default_priority n regs →
  ∃ p, regs !! (seq e - n)%nat = Some (callable e, p)
       ∧ priority e = default default_priority p ∧ (n ≤ seq e)%nat.
Proof.
  revert n. induction regs as [|[c p] regs IH]; intros n; simpl.
  - by intros ?%elem_of_nil.
  - intros [->|He]%elem_of_cons.
    + exists p. simpl. rewrite Nat.sub_diag. done.
    + destruct (IH _ He) as (p' & Hlookup & Hp & Hn). exists p'.
      replace (seq e - n)%nat with (S (seq e - S n)) by lia.
      split; [done|]. split; [done | lia].
Qed.

Lemma entries_priority_of default_priority (regs : list (C * option Z)) e :
  e ∈ entries default_priority regs →
  (∃ p, regs !! seq e = Some (callable e, p))
  ∧ priority e = priority_of default_priority regs (seq e).
Proof.
  intros (p & Hlookup & Hp & _)%entries_from_lookup.
  rewrite Nat.sub_0_r in Hlookup. split; [by exists p|].
  unfold priority_of. by rewrite Hlookup.
Qed.

Lemma sorted_seq_before default_priority (regs : list (C * option Z)) l :
  (∀ e, e ∈ l → priority e = priority_of default_priority regs (seq e)) →
  StronglySorted by_priority_then_seq l →
  StronglySorted (before default_priority regs) (seq <$> l).
Proof.
  intros Hp. induction 1 as [|x l Hl IH Hx]; [constructor|].
  rewrite fmap_cons. constructor.
  - apply IH. intros e He. apply Hp. by right.
  - rewrite Forall_fmap. rewrite Forall_forall in Hx |- *.
    intros y Hy. specialize (Hx y Hy). unfold before. simpl.
    rewrite <- (Hp x) by left. rewrite <- (Hp y) by (by right). exact Hx.
Qed.

(** What the sequence of a fresh hook is after a list of registrations,
    told by registration numbers: each number once, in the order of
    [before]. *)
Lemma insert_all_order default_priority (regs : list (C * option Z)) :
  let chain := insert_all (entries default_priority regs) [] in
  (∀ e, e ∈ chain → ∃ p, regs !! seq e = Some (callable e, p))
  ∧ seq <$> chain ≡ₚ List.seq 0 (length regs)
  ∧ StronglySorted (before default_priority regs) (seq <$> chain).
Proof.
  cbv zeta.
  assert (insert_all (entries default_priority regs) [] ≡ₚ entries default_priority regs)
    as Hperm by (by rewrite insert_all_perm).
  split; [|split].
  - intros e He. rewrite Hperm in He. by apply entries_priority_of in He as [? _].
  - rewrite Hperm. unfold entries. by rewrite fmap_seq_entries_from.
  - apply sorted_seq_before.
    + intros e He. rewrite Hperm in He. by apply entries_priority_of in He as [_ ?].
    + apply insert_all_then_seq; [constructor | apply entries_from_sorted|].
      by intros x y ?%elem_of_nil.
Qed.

End Order.

(** In a sorted list, of two distinct members the one that may not
    follow the other stands before it. *)
Lemma sorted_pair_sublist {A} (R : relation A) (x y : A) (l : list A) :
  StronglySorted R l → x ∈ l → y ∈ l → x ≠ y → ¬ R y x →
  [x; y] `sublist_of` l.
Proof.
  induction 1 as [|z l Hl IH Hz]; intros Hx Hy Hne Hnot; [by apply elem_of_nil in Hx|].
  apply elem_of_cons in Hx as [->|Hx]; apply elem_of_cons in Hy as [->|Hy].
  - done.
  - apply sublist_skip. by apply singleton_sublist_l.
  - rewrite Forall_forall in Hz. by specialize (Hz _ Hx).
  - apply sublist_cons. by apply IH.
Qed.

(** Without ties the order of [before] is that of the priorities. *)
Lemma sorted_before_strict {C} default_priority (regs : list (C * option Z))
    (order : list nat) :
  StronglySorted (before default_priority regs) order →
  NoDup (priority_of default_priority regs <$> order) →
  StronglySorted (by_priority_of default_priority regs) order.
Proof.
  induction 1 as [|i order Horder IH Hi]; intros Hnd; [constructor|].
  rewrite fmap_cons in Hnd. apply NoDup_cons in Hnd as [Hnotin Hnd].
  constructor; [by apply IH|].
  rewrite Forall_forall in Hi |- *. intros j Hj.
  destruct (Hi j Hj) as [Hlt|[Heq _]]; [done|].
  exfalso. apply Hnotin. rewrite Heq. apply list_elem_of_fmap. eauto.
Qed.

Section EngineFacts.

Context {Args Res Exc W : Type}.

Local Abbreviation Hook := (@InterceptionHook Args Res Exc W).
Local Abbreviation Chain := (list (Entry (@Interceptor Args Res Exc W))).
Local Abbreviation IEntry := (Entry (@Interceptor Args Res Exc W)).
Local Abbreviation DefaultCallable := (Args → W → W * @Outcome Exc Res).
Local Abbreviation Trace := (list (@Event Args Res Exc)).
Local Abbreviation Step := (Args → W → @Run Args Res Exc W Res).

Implicit Types (h : Hook) (chain : Chain) (d : DefaultCallable) (a : Args) (w : W).
Implicit Types (t : Trace) (next : Step) (act : @Action Args Res Exc W).
Implicit Types (L vs : list Link).

Variable default_priority : Z.

(** ** Registration *)

Lemma interceptors_register_all regs h :
  interceptors (register_all default_priority regs h)
  = insert_all (entries_from default_priority (length (interceptors h)) regs)
      (interceptors h).
Proof.
  rewrite <- foldl_insert_entries. unfold register_all.
  revert h. induction regs as [|r regs IH]; intros h; simpl; [done|].
  by rewrite IH.
Qed.

Lemma default_callable_register_all regs h :
  default_callable (register_all default_priority regs h) = default_callable h.
Proof.
  revert h. induction regs as [|r regs IH]; intros h; simpl; [done|].
  by rewrite IH.
Qed.

(** ** Visits *)

Lemma visits_app t1 t2 : visits (t1 ++ t2) = visits t1 ++ visits t2.
Proof. apply omap_app. Qed.

Lemma visits_call_default d a w : visits (trace (call_default d a w)) = [Default].
Proof. unfold call_default; simpl. by destruct (d a w).2. Qed.

Lemma split_app_cons {A} (l1 l2 pre post : list A) x :
  l1 ++ l2 = pre ++ x :: post →
  (∃ post1, l1 = pre ++ x :: post1 ∧ post = post1 ++ l2)
  ∨ (∃ pre2, pre = l1 ++ pre2 ∧ l2 = pre2 ++ x :: post).
Proof.
  intros [[k [-> Hk]]|[k [-> Hk]]]%app_eq_inv.
  - destruct k as [|x' k]; simpl in *.
    + right. exists []. by rewrite !app_nil_r.
    + injection Hk as -> ->. left. by exists k.
  - right. eauto.
Qed.

Lemma ordered_visits_nil L : ordered_visits L [].
Proof.
  split; [by intros y ?%elem_of_nil|].
  intros x y pre post _ Heq. by destruct pre.
Qed.

Lemma ordered_visits_app L vs1 vs2 :
  ordered_visits L vs1 → ordered_visits L vs2 → ordered_visits L (vs1 ++ vs2).
Proof.
  intros [Hin1 Hord1] [Hin2 Hord2]. split.
  - intros y [?|?]%elem_of_app; auto.
  - intros x y pre post Hsub [(post1 & -> & ->)|(pre2 & -> & ->)]%split_app_cons.
    + by eapply Hord1.
    + apply elem_of_app. right. by eapply Hord2.
Qed.

Lemma ordered_visits_cons l L vs :
  NoDup (l :: L) → ordered_visits L vs → ordered_visits (l :: L) (l :: vs).
Proof.
  intros [Hl _]%NoDup_cons [Hin Hord]. split.
  - intros y [->|?]%elem_of_cons; [left | right; auto].
  - intros x y pre post Hsub Heq.
    destruct pre as [|l' pre]; simpl in Heq; injection Heq as <- Hv.
    + exfalso. apply Hl. apply sublist_cons_r in Hsub as [Hsub|(k & Hk & Hsub)].
      * eapply sublist_subseteq; [exact Hsub|]. right. left.
      * simplify_eq. eapply sublist_subseteq; [exact Hsub|]. left.
    + apply sublist_cons_r in Hsub as [Hsub|(k & Hk & Hsub)].
      * right. by eapply Hord.
      * simplify_eq. left.
Qed.

Lemma run_action_ordered L self next act w :
  (∀ a' w', ordered_visits L (visits (trace (next a' w')))) →
  ordered_visits L (visits (trace (run_action self next act w))).
Proof.
  intros Hnext. revert w.
  induction act as [r|e|a k IH|k IH|w' k IH]; intros w; simpl.
  - apply ordered_visits_nil.
  - apply ordered_visits_nil.
  - destruct (outcome (next a w)) as [v|e]; [|apply Hnext].
    simpl. rewrite visits_app. apply ordered_visits_app; [apply Hnext | apply IH].
  - apply IH.
  - apply IH.
Qed.

(** Whatever the interceptors do, a link is called only after every
    link ahead of it in the chain. *)
Lemma call_chain_ordered chain d a w :
  NoDup (links chain) →
  ordered_visits (links chain) (visits (trace (call_chain chain d a w))).
Proof.
  revert a w. induction chain as [|e rest IH]; intros a w Hnd.
  - change (call_chain [] d a w) with (call_default d a w).
    rewrite visits_call_default. split.
    + intros y Hy. exact Hy.
    + intros x y pre post Hsub _. apply sublist_length in Hsub. simpl in Hsub; lia.
  - change (links (e :: rest)) with (link_of e :: links rest) in *.
    change (visits (trace (call_chain (e :: rest) d a w)))
      with (link_of e :: visits (trace (run_action (link_of e) (call_chain rest d)
                                          (callable e a) w))).
    apply ordered_visits_cons; [done|].
    apply run_action_ordered. intros a' w'. apply IH.
    by apply NoDup_cons in Hnd as [_ ?].
Qed.

Lemma NoDup_links chain :
  NoDup (link_of <$> chain) → NoDup (links chain).
Proof.
  intros Hnd. unfold links. apply NoDup_app. split; [done|]. split.
  - intros y (e & -> & _)%list_elem_of_fmap Hy.
    apply list_elem_of_singleton in Hy. discriminate.
  - apply NoDup_singleton.
Qed.

(** An interceptor that never calls [next] ends on its own: it calls
    nothing, and the one event it leaves is its return or its raise. *)
Lemma run_action_no_next self next act w :
  no_next act →
  ∃ w', (∃ v, run_action self next act w
              = {| trace := [Returned self v]; final := w'; outcome := Ok v |})
        ∨ (∃ e, run_action self next act w
                = {| trace := [Raised self e]; final := w'; outcome := Err e |}).
Proof.
  revert w. induction act as [r|e|a k IH|k IH|w' k IH]; intros w Hno; simpl in *.
  - exists w. left. by exists r.
  - exists w. right. by exists e.
  - done.
  - apply IH, Hno.
  - by apply IH.
Qed.

(** ** The order of the visits *)

Lemma link_of_fmap chain : link_of <$> chain = Registered <$> (seq <$> chain).
Proof. by rewrite <- list_fmap_compose. Qed.

(** Having called [next] once, the interceptor adds no visit of its own
    making. *)
Lemma run_action_calls_next_once L self next act w :
  calls_next_once act →
  (∀ a' w', visits (trace (next a' w')) = L) →
  visits (trace (run_action self next act w)) = L.
Proof.
  intros Honce Hnext. revert w Honce.
  induction act as [r|e|a k IH|k IH|w' k IH]; intros w Honce; simpl in *; [done..| | |].
  - destruct (outcome (next a w)) as [v|e]; [|apply Hnext].
    simpl. rewrite visits_app, Hnext.
    destruct (run_action_no_next self next (k v) (final (next a w)) (Honce v))
      as (w' & [(v' & ->)|(e & ->)]); simpl; apply app_nil_r.
  - apply IH, Honce.
  - by apply IH.
Qed.

(** When every interceptor calls [next] once, the whole chain is visited
    once, in chain order, the default last. *)
Lemma call_chain_calls_next_once chain d a w :
  (∀ e b, e ∈ chain → calls_next_once (callable e b)) →
  visits (trace (call_chain chain d a w)) = links chain.
Proof.
  revert a w. induction chain as [|e rest IH]; intros a w Honce.
  - apply visits_call_default.
  - simpl. unfold links. rewrite fmap_cons. simpl. f_equal.
    apply run_action_calls_next_once; [apply Honce; left|].
    intros a' w'. apply IH. intros e' b He'. apply Honce. by right.
Qed.

(** C1, as amended.  Register any list of interceptors on a fresh hook,
    each under the priority given with it or, when none is given, under
    the default one.  Told by registration numbers, the chain holds every
    registration once, a registration of lower priority ahead of one of
    higher priority and, of two registrations of equal priority, the one
    made first ahead of the other; so in strictly ascending priority
    when the priorities are distinct.  Whatever the interceptors do,
    [invoke] calls an interceptor only after every interceptor that
    stands ahead of it in that order, and the default only after every
    interceptor.  When each interceptor calls [next] once, whatever it
    does to arguments, result and state, the visits are exactly the
    chain in that order, the default last. *)
Theorem invoke_visits_by_priority
    (regs : list (@Interceptor Args Res Exc W * option Z)) d a w :
  let h := register_all default_priority regs (new_hook d) in
  let order := seq <$> interceptors h in
  (∀ e, e ∈ interceptors h → ∃ p, regs !! seq e = Some (callable e, p))
  ∧ order ≡ₚ List.seq 0 (length regs)
  ∧ StronglySorted (before default_priority regs) order
  ∧ (NoDup (priority_of default_priority regs <$> List.seq 0 (length regs)) →
     StronglySorted (by_priority_of default_priority regs) order)
  ∧ (∀ i j pre post,
       (i < length regs)%nat → (j < length regs)%nat →
       before default_priority regs i j →
       visits (trace (invoke h a w)) = pre ++ Registered j :: post →
       Registered i ∈ pre)
  ∧ (∀ i pre post,
       (i < length regs)%nat →
       visits (trace (invoke h a w)) = pre ++ Default :: post →
       Registered i ∈ pre)
  ∧ ((∀ r b, r ∈ regs → calls_next_once (r.1 b)) →
     visits (trace (invoke h a w)) = (Registered <$> order) ++ [Default]).
Proof.
  cbv zeta. unfold invoke.
  rewrite interceptors_register_all, default_callable_register_all. simpl.
  change (entries_from default_priority 0 regs) with (entries default_priority regs).
  destruct (insert_all_order default_priority regs) as (Hregs & Hperm & Hsorted).
  set (chain := insert_all (entries default_priority regs) []) in *.
  assert (∀ i, (i < length regs)%nat → i ∈ seq <$> chain) as Hin.
  { intros i Hi. rewrite Hperm. apply elem_of_seq. lia. }
  assert (NoDup (links chain)) as Hnd.
  { apply NoDup_links. rewrite link_of_fmap.
    apply NoDup_fmap_2; [by intros i j [= ->]|]. rewrite Hperm. apply NoDup_seq. }
  pose proof (call_chain_ordered chain d a w Hnd) as [_ Hord].
  unfold links in Hord. rewrite link_of_fmap in Hord.
  split; [exact Hregs|]. split; [exact Hperm|]. split; [exact Hsorted|].
  split; [|split; [|split]].
  - intros Hdistinct. apply sorted_before_strict; [done|]. by rewrite Hperm.
  - intros i j pre post Hi Hj Hbefore Hvisits.
    eapply Hord; [|exact Hvisits].
    apply sublist_inserts_r. apply (fmap_sublist Registered [i; j]).
    apply (sorted_pair_sublist (before default_priority regs)); [done|auto..| |].
    + intros ->. unfold before in Hbefore. lia.
    + unfold before in *. lia.
  - intros i pre post Hi Hvisits.
    eapply Hord; [|exact Hvisits].
    apply (sublist_app [Registered i] _ [Default] [Default]); [|done].
    apply singleton_sublist_l, list_elem_of_fmap. exists i. auto.
  - intros Honce. rewrite <- link_of_fmap. apply call_chain_calls_next_once.
    intros e b He. destruct (Hregs e He) as (p & Hlookup).
    apply list_elem_of_lookup_2 in Hlookup. by apply (Honce _ b) in Hlookup.
Qed.

(** ** No interceptor *)

(** C2.  On a hook with no registered interceptor, [invoke] calls the
    default callable once, with the very arguments it was given, and
    ends as the default callable does: same result or exception, same
    final state. *)
Theorem invoke_without_interceptors h a w :
  interceptors h = [] →
  outcome (invoke h a w) = (default_callable h a w).2
  ∧ final (invoke h a w) = (default_callable h a w).1
  ∧ visits (trace (invoke h a w)) = [Default]
  ∧ call_args (trace (invoke h a w)) = [a].
Proof.
  intros Hnone. unfold invoke. rewrite Hnone. simpl.
  by destruct (default_callable h a w) as [w' [r|e]].
Qed.

(** ** Short circuit *)

(** How an interceptor's run begins: it ends on its own, with one event,
    or it begins with a call to [next]. *)
Lemma run_action_begins self next act w :
  (∃ w' v, run_action self next act w
           = {| trace := [Returned self v]; final := w'; outcome := Ok v |})
  ∨ (∃ w' e, run_action self next act w
             = {| trace := [Raised self e]; final := w'; outcome := Err e |})
  ∨ (∃ a' w' t, trace (run_action self next act w) = trace (next a' w') ++ t).
Proof.
  revert w. induction act as [r|e|a k IH|k IH|w' k IH]; intros w; simpl.
  - left. by exists w, r.
  - right. left. by exists w, e.
  - right. right. exists a, w.
    destruct (outcome (next a w)); simpl; [eauto|]. exists []. by rewrite app_nil_r.
  - apply IH.
  - apply IH.
Qed.

Lemma call_chain_begins chain d a w :
  ∃ l t, trace (call_chain chain d a w) = Called l a :: t.
Proof. destruct chain; simpl; eauto. Qed.

(** A run never ends on a call: its last event is a return or a raise. *)
Local Abbreviation settled t :=
  (∃ pre ev, t = pre ++ [ev] ∧ ∀ l b, ev ≠ @Called Args Res Exc l b).

Lemma run_action_settled self next act w :
  (∀ a' w', settled (trace (next a' w'))) →
  settled (trace (run_action self next act w)).
Proof.
  intros Hnext. revert w.
  induction act as [r|e|a k IH|k IH|w' k IH]; intros w; simpl.
  - by exists [], (Returned self r).
  - by exists [], (Raised self e).
  - destruct (outcome (next a w)) as [v|e]; [|apply Hnext]. simpl.
    destruct (IH v (final (next a w))) as (pre & ev & -> & Hev).
    exists (trace (next a w) ++ pre), ev. by rewrite app_assoc.
  - apply IH.
  - apply IH.
Qed.

Lemma call_chain_settled chain d a w : settled (trace (call_chain chain d a w)).
Proof.
  revert a w. induction chain as [|e rest IH]; intros a w; simpl.
  - eexists [Called Default a], _. split; [done|]. by destruct (d a w).2.
  - destruct (run_action_settled (link_of e) (call_chain rest d) (callable e a) w IH)
      as (pre & ev & -> & Hev).
    by exists (Called (link_of e) a :: pre), ev.
Qed.

Lemma answers_at_once_suffix who t1 t2 :
  answers_at_once who (t1 ++ t2) → answers_at_once who t2.
Proof.
  intros Hanswers pre b post ->. apply (Hanswers (t1 ++ pre) b post).
  by rewrite app_assoc.
Qed.

Lemma answers_at_once_prefix who t1 t2 :
  settled t1 → answers_at_once who (t1 ++ t2) → answers_at_once who t1.
Proof.
  intros (pre0 & ev & Ht1 & Hev) Hanswers pre b post Heq.
  destruct (Hanswers pre b (post ++ t2)) as (post' & Hpost).
  { rewrite Heq. by rewrite <- app_assoc. }
  destruct post as [|ev' post].
  - exfalso. rewrite Ht1 in Heq. apply app_inj_tail in Heq as [_ ->]. by eapply Hev.
  - exists post. destruct Hpost as [(v & Hpost)|(e & Hpost)]; simplify_eq/=; eauto.
Qed.

Lemma run_action_visits_answered who (S : list Link) self next act w :
  (∀ a' w', settled (trace (next a' w'))) →
  (∀ a' w', answers_at_once who (trace (next a' w')) →
            visits (trace (next a' w')) ⊆ S) →
  answers_at_once who (trace (run_action self next act w)) →
  visits (trace (run_action self next act w)) ⊆ S.
Proof.
  intros Hsettled Hnext. revert w.
  induction act as [r|e|a k IH|k IH|w' k IH]; intros w; simpl.
  - set_solver.
  - set_solver.
  - destruct (outcome (next a w)) as [v|e]; [|apply Hnext]. simpl.
    intros Hanswers. rewrite visits_app. intros y [Hy|Hy]%elem_of_app.
    + revert y Hy. apply Hnext. eapply answers_at_once_prefix; [apply Hsettled | done].
    + revert y Hy. apply IH. by eapply answers_at_once_suffix.
  - apply IH.
  - apply IH.
Qed.

(** The chain is not entered beyond an interceptor that, each time it
    is called in the run, answers without calling [next]. *)
Lemma call_chain_stops pre (e : IEntry) rest d a w :
  answers_at_once (link_of e) (trace (call_chain (pre ++ e :: rest) d a w)) →
  visits (trace (call_chain (pre ++ e :: rest) d a w)) ⊆ link_of <$> (pre ++ [e]).
Proof.
  revert a w. induction pre as [|x pre IH]; intros a w; simpl.
  - intros Hanswers. destruct (Hanswers [] a _ eq_refl) as (post' & Hpost).
    destruct (run_action_begins (link_of e) (call_chain rest d) (callable e a) w)
      as [(w' & v & ->)|[(w' & ex & ->)|(a' & w' & t & Ht)]]; simpl; [set_solver..|].
    exfalso. destruct (call_chain_begins rest d a' w') as (l & t' & Hbegin).
    rewrite Ht, Hbegin in Hpost.
    by destruct Hpost as [(v & Hpost)|(ex & Hpost)].
  - intros Hanswers y [->|Hy]%elem_of_cons; [left|]. right. revert y Hy.
    apply (run_action_visits_answered (link_of e)).
    + intros a' w'. apply call_chain_settled.
    + intros a' w'. apply IH.
    + by apply (answers_at_once_suffix _ [Called (link_of x) a]).
Qed.

Lemma run_action_hands_back v self next act w :
  hands_back v act →
  ∃ w', run_action self next act w
        = {| trace := [Returned self v]; final := w'; outcome := Ok v |}.
Proof.
  revert w. induction act as [r|e|a k IH|k IH|w' k IH]; intros w Hback; simpl in *.
  - subst. by exists w.
  - done.
  - done.
  - apply IH, Hback.
  - by apply IH.
Qed.

(** An interceptor that hands on ends as its one call to [next] ends,
    adding its own return of the same value. *)
Lemma run_action_hands_on self next act w :
  hands_on act →
  ∃ a' w',
    match outcome (next a' w') with
    | Ok v =>
        ∃ w'', run_action self next act w
               = {| trace := trace (next a' w') ++ [Returned self v];
                    final := w''; outcome := Ok v |}
    | Err _ => run_action self next act w = next a' w'
    end.
Proof.
  revert w. induction act as [r|e|a k IH|k IH|w' k IH]; intros w Hon; simpl in *.
  - done.
  - done.
  - exists a, w. destruct (outcome (next a w)) as [v|ex] eqn:Hout; [|done].
    destruct (run_action_hands_back v self next (k v) (final (next a w)) (Hon v))
      as (w'' & ->). by exists w''.
  - apply IH, Hon.
  - by apply IH.
Qed.

(** Through interceptors that hand on, the value of an interceptor that
    answers at once reaches the caller unchanged. *)
Lemma call_chain_returns_through pre (e : IEntry) rest d a w v :
  (∀ x b, x ∈ pre → hands_on (callable x b)) →
  answers_at_once (link_of e) (trace (call_chain (pre ++ e :: rest) d a w)) →
  Returned (link_of e) v ∈ trace (call_chain (pre ++ e :: rest) d a w) →
  outcome (call_chain (pre ++ e :: rest) d a w) = Ok v.
Proof.
  intros Hon. revert a w. induction pre as [|x pre IH]; intros a w; simpl.
  - intros Hanswers. destruct (Hanswers [] a _ eq_refl) as (post' & Hpost).
    destruct (run_action_begins (link_of e) (call_chain rest d) (callable e a) w)
      as [(w' & v' & ->)|[(w' & ex & ->)|(a' & w' & t & Ht)]]; simpl.
    + intros [Hin|Hin]%elem_of_cons; [done|].
      apply list_elem_of_singleton in Hin. by simplify_eq.
    + intros [Hin|Hin]%elem_of_cons; [done|].
      by apply list_elem_of_singleton in Hin.
    + exfalso. destruct (call_chain_begins rest d a' w') as (l & t' & Hbegin).
      rewrite Ht, Hbegin in Hpost.
      by destruct Hpost as [(v' & Hpost)|(ex & Hpost)].
  - assert (∀ x0 b, x0 ∈ pre → hands_on (callable x0 b)) as Hpre
      by (intros; apply Hon; by right).
    destruct (run_action_hands_on (link_of x) (call_chain (pre ++ e :: rest) d)
                (callable x a) w) as (a' & w' & Hrun); [apply Hon; left|].
    specialize (IH Hpre a' w').
    pose proof (call_chain_settled (pre ++ e :: rest) d a' w') as Hsettled.
    destruct (outcome (call_chain (pre ++ e :: rest) d a' w')) as [v1|ex] eqn:Hout.
    + destruct Hrun as (w'' & ->). simpl. intros Hanswers Hin.
      apply (answers_at_once_suffix _ [Called (link_of x) a]) in Hanswers.
      apply answers_at_once_prefix in Hanswers; [|done].
      apply elem_of_cons in Hin as [Hin|Hin]; [done|].
      apply elem_of_app in Hin as [Hin|Hin].
      * by rewrite <- (IH Hanswers Hin).
      * apply list_elem_of_singleton in Hin. by simplify_eq.
    + rewrite Hrun. rewrite Hout. intros Hanswers Hin.
      apply (answers_at_once_suffix _ [Called (link_of x) a]) in Hanswers.
      apply elem_of_cons in Hin as [Hin|Hin]; [done|].
      by specialize (IH Hanswers Hin).
Qed.


(** ** Exceptions *)

Lemma run_action_aborted self next act w :
  (∀ a' w', aborted_by_raise (next a' w')) →
  aborted_by_raise (run_action self next act w).
Proof.
  intros Hnext. revert w.
  induction act as [r|e|a k IH|k IH|w' k IH]; intros w; simpl.
  - split; simpl.
    + intros [|ev [|ev' pre]] who e post Heq; simplify_eq/=.
    + done.
  - split; simpl.
    + intros [|ev [|ev' pre]] who e' post Heq; by simplify_eq/=.
    + intros e' [= <-]. by exists [], self.
  - destruct (outcome (next a w)) as [v|ex] eqn:Hout; [|apply Hnext].
    destruct (Hnext a w) as [Hlast1 Hfrom1].
    destruct (IH v (final (next a w))) as [Hlast2 Hfrom2].
    split; simpl.
    + intros pre who e post [(post1 & Ht1 & ->)|(pre2 & -> & Ht2)]%split_app_cons.
      * destruct (Hlast1 _ _ _ _ Ht1) as [_ Herr]. congruence.
      * by eapply Hlast2.
    + intros e (pre & who & Ht2)%Hfrom2. exists (trace (next a w) ++ pre), who.
      rewrite Ht2. by rewrite app_assoc.
  - apply IH.
  - apply IH.
Qed.

Lemma call_chain_aborted chain d a w : aborted_by_raise (call_chain chain d a w).
Proof.
  revert a w. induction chain as [|x rest IH]; intros a w; simpl.
  - unfold call_default. destruct (d a w) as [w' [v|ex]]; split; simpl.
    + intros [|ev1 [|ev2 [|ev3 pre]]] who e post Heq; simplify_eq/=.
    + done.
    + intros [|ev1 [|ev2 [|ev3 pre]]] who e post Heq; by simplify_eq/=.
    + intros e [= <-]. by exists [Called Default a], Default.
  - destruct (run_action_aborted (link_of x) (call_chain rest d)
                (callable x a) w IH) as [Hlast Hfrom].
    split; simpl.
    + intros [|ev pre] who e post Heq; simplify_eq/=. by eapply Hlast.
    + intros e (pre & who & Ht)%Hfrom. exists (Called (link_of x) a :: pre), who.
      by rewrite Ht.
Qed.


(** ** Running twice *)

Lemma run_action_same_course self next act1 w1 act2 w2 :
  same_course act1 w1 act2 w2 →
  (∀ a' w1' w2', same_calls (next a' w1') (next a' w2')) →
  same_calls (run_action self next act1 w1) (run_action self next act2 w2).
Proof.
  intros Hsame Hnext.
  induction Hsame as [r w1 w2|e w1 w2|a k1 k2 w1 w2 _ IH
                     |k act w1 w2 _ IH|w k act w1 w2 _ IH
                     |k act w1 w2 _ IH|w k act w1 w2 _ IH]; simpl.
  - done.
  - done.
  - destruct (Hnext a w1 w2) as [Htrace Hout]. rewrite <- Hout.
    destruct (outcome (next a w1)) as [v|ex]; [|done].
    destruct (IH v (final (next a w1)) (final (next a w2))) as [Ht Ho].
    split; simpl; congruence.
  - exact IH.
  - exact IH.
  - exact IH.
  - exact IH.
Qed.

Lemma call_chain_same_course chain d a w1 w2 :
  (∀ e, e ∈ chain → unaffected_by_state (callable e)) →
  state_independent d →
  same_calls (call_chain chain d a w1) (call_chain chain d a w2).
Proof.
  intros Hsame Hd. revert a w1 w2.
  induction chain as [|e rest IH]; intros a w1 w2; simpl.
  - unfold call_default, same_calls; simpl. by rewrite (Hd a w1 w2).
  - destruct (run_action_same_course (link_of e) (call_chain rest d)
                (callable e a) w1 (callable e a) w2) as [Ht Ho].
    + apply Hsame. left.
    + apply IH. intros e' He'. apply Hsame. by right.
    + split; simpl; congruence.
Qed.

(** C6, as amended.  Run [invoke] twice on the same hook with the same
    arguments, the second time in any state, such as the one the first
    run left.  When what each interceptor forwards, returns or raises
    does not depend on the state it is called in (it may still read the
    state and write it, as a counter does) and neither does the default
    callable's result, both runs make the same sequence of calls and end
    the same way.  In every case both runs follow the one chain: in
    each, a link is called only after every link ahead of it. *)
Theorem rerun_same_calls h a w1 w2 :
  let r1 := invoke h a w1 in
  let r2 := invoke h a w2 in
  ((∀ e, e ∈ interceptors h → unaffected_by_state (callable e)) →
   state_independent (default_callable h) →
   trace r1 = trace r2 ∧ outcome r1 = outcome r2)
  ∧ (NoDup (links (interceptors h)) →
     ordered_visits (links (interceptors h)) (visits (trace r1))
     ∧ ordered_visits (links (interceptors h)) (visits (trace r2))).
Proof.
  cbv zeta. unfold invoke. split.
  - intros Hsame Hd. by apply call_chain_same_course.
  - intros Hnd. split; by apply call_chain_ordered.
Qed.

End EngineFacts.

(** ** Notification hooks *)

Section NotificationFacts.

Context {Args Res Exc W : Type}.

Local Abbreviation NHook := (@NotificationHook Args Res Exc W).
Local Abbreviation Listeners := (list (Entry (@Listener Args Res Exc W))).

Implicit Types (h : NHook) (ls : Listeners) (a : Args) (w : W) (pol : Policy).

Variable default_priority : Z.

Lemma listeners_register_listeners regs h :
  listeners (register_listeners default_priority regs h)
  = insert_all (entries_from default_priority (length (listeners h)) regs) (listeners h).
Proof.
  rewrite <- foldl_insert_entries. unfold register_listeners.
  revert h. induction regs as [|r regs IH]; intros h; simpl; [done|].
  by rewrite IH.
Qed.

Lemma policy_register_listeners regs h :
  policy (register_listeners default_priority regs h) = policy h.
Proof.
  revert h. induction regs as [|r regs IH]; intros h; simpl; [done|].
  by rewrite IH.
Qed.

(** The listeners are called in sequence order, from the first on. *)
Lemma notify_visits_prefix pol ls a w :
  visits (n_trace (notify pol ls a w)) `prefix_of` listener_links ls.
Proof.
  revert w. induction ls as [|l rest IH]; intros w; simpl; [done|].
  destruct (callable l a w) as [w' [v|e]]; simpl.
  - destruct pol; apply prefix_cons, IH.
  - destruct pol; simpl.
    + apply prefix_cons, prefix_nil.
    + apply prefix_cons, IH.
Qed.

(** Every call gets the arguments of [invoke]. *)
Lemma notify_call_args pol ls a w :
  Forall (λ b, b = a) (call_args (n_trace (notify pol ls a w))).
Proof.
  revert w. induction ls as [|l rest IH]; intros w; simpl; [constructor|].
  destruct (callable l a w) as [w' [v|e]]; simpl.
  - destruct pol; constructor; auto.
  - destruct pol; simpl; repeat constructor; auto.
Qed.

(** Unless a listener raised under the fail-fast policy, every listener
    is called. *)
Lemma notify_visits_all pol ls a w :
  pol = IsolateAndContinue ∨ n_errors (notify pol ls a w) = [] →
  visits (n_trace (notify pol ls a w)) = listener_links ls.
Proof.
  revert w. induction ls as [|l rest IH]; intros w; simpl; [done|].
  destruct (callable l a w) as [w' [v|e]]; simpl.
  - destruct pol; simpl; intros H; f_equal; by apply IH.
  - destruct pol; simpl.
    + by intros [?|?].
    + intros _. f_equal. apply IH. by left.
Qed.

(** What a listener returns has no part in the run. *)
Lemma notify_discards_results pol ls a w (v0 : Res) :
  notify pol (forget_result v0 <$> ls) a w = notify pol ls a w.
Proof.
  revert w. induction ls as [|l rest IH]; intros w; simpl; [done|].
  destruct (callable l a w) as [w' [v|e]]; simpl.
  - destruct pol; by rewrite IH.
  - destruct pol; [done|]. by rewrite IH.
Qed.

Lemma filter_all {A} (P : A → Prop) `{!∀ x, Decision (P x)} (l : list A) :
  Forall P l → filter P l = l.
Proof.
  induction 1 as [|x l Hx _ IH]; [done|]. by rewrite filter_cons_True, IH.
Qed.

(** Without explicit priorities the sequence is the registration order. *)
Lemma insert_all_no_priority {C} (regs : list (C * option Z)) :
  (∀ r, r ∈ regs → r.2 = None) →
  insert_all (entries default_priority regs) [] = entries default_priority regs.
Proof.
  intros Hnone.
  destruct (insert_all_stable_sort (entries default_priority regs))
    as (Hperm & _ & Hstable & _).
  assert (Forall (λ e : Entry C, priority e = default_priority)
            (entries default_priority regs)) as Hall.
  { apply Forall_forall. intros e (r & Hr & _ & ->)%elem_of_entries_from.
    by rewrite (Hnone r Hr). }
  rewrite <- (filter_all (λ e, priority e = default_priority)
                (insert_all (entries default_priority regs) []))
    by (by rewrite Hperm).
  rewrite Hstable. by apply filter_all.
Qed.

(** Under the fail-fast policy a raise ends the run: it is the last
    event, the listener that raised is the last one called, and its
    exception is the one let through. *)
Lemma notify_fail_fast ls a w pre who e post :
  n_trace (notify FailFast ls a w) = pre ++ Raised who e :: post →
  post = []
  ∧ last (visits (n_trace (notify FailFast ls a w))) = Some who
  ∧ n_errors (notify FailFast ls a w) = [e].
Proof.
  revert w pre. induction ls as [|l rest IH]; intros w pre; simpl.
  - by destruct pre.
  - destruct (callable l a w) as [w' [v|ex]]; simpl.
    + destruct pre as [|ev pre]; simpl; [done|]. intros [= <- Heq].
      destruct (IH w' pre Heq) as (-> & Hlast & Herrors).
      split; [done|]. split; [|done]. by rewrite last_cons, Hlast.
    + destruct pre as [|ev [|ev' pre]]; simpl; intros Heq; simplify_eq; [done|].
      by destruct pre.
Qed.


End NotificationFacts.

(** ** The scenarios of the design document *)

(** Scenario A: the default measures the string as stripped by the
    interceptor. *)
Example scenario_a : outcome (invoke stripping_hook " ab " tt) = Ok 2.
Proof. reflexivity. Qed.

(** Scenario B: the interceptor answers, the default never runs. *)
Example scenario_b :
  outcome (invoke intercepted_hook 7 None) = Ok 5
  ∧ visits (trace (invoke intercepted_hook 7 None)) = [Registered 0].
Proof. split; reflexivity. Qed.

(** Scenario C: the interceptor of priority 5, registered second, then
    the interceptor of priority 10, registered first, then the default. *)
Example scenario_c :
  (priority <$> interceptors two_priorities_hook) = [5; 10]
  ∧ visits (trace (invoke two_priorities_hook 7 None))
    = [Registered 1; Registered 0; Default].
Proof. split; reflexivity. Qed.

(** C1, as stated, fails when an interceptor does not call [next]
    exactly once.  Behind an interceptor that calls [next] twice the
    rest of the chain is visited twice, so that an interceptor is
    visited after the default; and behind an interceptor that never
    calls [next] the default is not visited at all. *)
Lemma visits_leave_chain_order :
  links (interceptors twice_hook) = [Registered 0; Registered 1; Default]
  ∧ visits (trace (invoke twice_hook 7 None))
    = [Registered 0; Registered 1; Default; Registered 1; Default]
  ∧ visits (trace (invoke twice_hook 7 None)) ≠ links (interceptors twice_hook)
  ∧ links (interceptors intercepted_hook) = [Registered 0; Default]
  ∧ visits (trace (invoke intercepted_hook 7 None)) = [Registered 0]
  ∧ Default ∉ visits (trace (invoke intercepted_hook 7 None)).
Proof.
  split; [reflexivity|]. split; [reflexivity|]. split; [discriminate|].
  split; [reflexivity|]. split; [reflexivity|].
  intros Hin%list_elem_of_singleton. discriminate.
Qed.

(** Two interceptors that call [next] once without being plain
    pass-throughs, one counting, one changing the arguments: the one
    registered second, under the lower priority, is called first.  The
    two facts about the order, that it holds both registrations and
    that it follows [before], leave no other. *)
Lemma invoke_visits_by_priority_witness :
  visits (trace (invoke shifting_priorities_hook 7 None))
  = [Registered 1; Registered 0; Default].
Proof.
  destruct (invoke_visits_by_priority 0 shifting_priorities echo 7 None)
    as (_ & Hperm & Hsorted & _ & _ & _ & Hall).
  unfold shifting_priorities_hook. rewrite Hall.
  - revert Hperm Hsorted.
    generalize (seq <$> interceptors (register_all 0 shifting_priorities (new_hook echo))).
    intros order Hperm Hsorted. symmetry in Hperm.
    apply Permutation_length_2_inv in Hperm as [-> | ->]; [|reflexivity].
    exfalso. apply StronglySorted_inv in Hsorted as [_ Hhead].
    apply Forall_cons in Hhead as [Hbefore _].
    unfold before, priority_of in Hbefore. simpl in Hbefore. lia.
  - intros r b [->|Hr]%elem_of_cons; [by intros w; simpl|].
    apply list_elem_of_singleton in Hr as ->. by simpl.
Defined.

Lemma invoke_without_interceptors_witness :
  outcome (invoke (new_hook echo) 7 None) = (echo 7 None).2
  ∧ final (invoke (new_hook echo) 7 None) = (echo 7 None).1
  ∧ visits (trace (invoke (new_hook echo) 7 None)) = [Default]
  ∧ call_args (trace (invoke (new_hook echo) 7 None)) = [7].
Proof. exact (invoke_without_interceptors (new_hook echo) 7 None eq_refl). Defined.





(** C6, as stated, fails for an interceptor whose decision to call [next]
    depends on what an earlier run wrote: the second run of the caching
    hook, with the same interceptors and arguments, stops at the
    interceptor, where the first went on to the default. *)
Lemma rerun_makes_other_calls :
  visits (trace (invoke caching_hook 7 None)) = [Registered 0; Default]
  ∧ visits (trace (invoke caching_hook 7 (final (invoke caching_hook 7 None))))
    = [Registered 0]
  ∧ visits (trace (invoke caching_hook 7 None))
    ≠ visits (trace (invoke caching_hook 7 (final (invoke caching_hook 7 None)))).
Proof. split; [reflexivity|]. split; [reflexivity|]. discriminate. Qed.

(** An interceptor that counts its calls reads the state and writes it,
    and the second run finds the state that the first one left; both
    runs make the same calls all the same. *)
Lemma rerun_same_calls_witness :
  final (invoke counting_hook 7 None) = Some 1
  ∧ final (invoke counting_hook 7 (Some 1)) = Some 2
  ∧ trace (invoke counting_hook 7 None) = trace (invoke counting_hook 7 (Some 1))
  ∧ outcome (invoke counting_hook 7 None) = outcome (invoke counting_hook 7 (Some 1)).
Proof.
  split; [reflexivity|]. split; [reflexivity|].
  apply (proj1 (rerun_same_calls counting_hook 7 None (Some 1))).
  - intros e He. change (interceptors counting_hook) with [entry 0 counting None 0] in He.
    apply list_elem_of_singleton in He as ->. intros a w1 w2. simpl.
    apply same_course_get_l, same_course_put_l, same_course_get_r, same_course_put_r.
    apply same_course_next. intros r w1' w2'. apply same_course_ret.
  - by intros a w1 w2.
Defined.

(** An interceptor that writes the state but never reads it makes the
    same calls in the second run. *)
Example rerun_noting_hook :
  final (invoke noting_hook 7 None) = Some 7
  ∧ trace (invoke noting_hook 7 None)
    = trace (invoke noting_hook 7 (final (invoke noting_hook 7 None))).
Proof. split; reflexivity. Qed.

End HooksFacts.

(* ===================================================================== *)
(** * Further properties of the theme admin views                         *)
(* ===================================================================== *)

Module ThemesMoreFacts.
Import Themes ThemesMore.

(** ** Activating a theme *)

Lemma activated_lookup k j (t : gmap Z ThemeRow) :
  update_pk_active k (update_all_inactive t) !! j
  = set_is_active (bool_decide (k = j)) <$> t !! j.
Proof.
  unfold update_pk_active, update_all_inactive. rewrite lookup_alter.
  destruct (decide (k = j)) as [->|Hne]; rewrite lookup_fmap.
  - rewrite bool_decide_eq_true_2 by done. by destruct (t !! j).
  - by rewrite bool_decide_eq_false_2.
Qed.

Lemma inactive_activated k (t : gmap Z ThemeRow) :
  update_all_inactive (update_pk_active k (update_all_inactive t))
  = update_all_inactive t.
Proof.
  apply map_eq. intros j. unfold update_all_inactive at 1.
  rewrite lookup_fmap, activated_lookup.
  unfold update_all_inactive. rewrite lookup_fmap.
  by destruct (t !! j).
Qed.

(** X1.  The last activation wins: activating one theme and then another
    leaves the theme table as activating the second alone does, so
    activating the same theme twice is the same as once; each call clears
    the theme cache once more. *)
Theorem set_theme_as_active_last_wins request1 request2 theme1 theme2 w :
  let w' := set_theme_as_active request2 theme2
              (set_theme_as_active request1 theme1 w) in
  themes w' = themes (set_theme_as_active request2 theme2 w)
  ∧ (theme1 = theme2 → themes w' = themes (set_theme_as_active request1 theme1 w))
  ∧ effects w' = effects w ++ [ClearThemeCache; ClearThemeCache].
Proof.
  cbv zeta. split; [|split].
  - unfold set_theme_as_active; simpl. by rewrite inactive_activated.
  - intros ->. unfold set_theme_as_active; simpl. by rewrite inactive_activated.
  - unfold set_theme_as_active; simpl. by rewrite <- app_assoc.
Qed.

(** X2.  Activation touches nothing but the [is_active] marks: every row
    keeps its name and its [is_default] mark, no row is added or removed,
    the asset tables are left alone, no message is emitted, and the theme
    cache is cleared exactly once. *)
Theorem set_theme_as_active_only_marks request theme w :
  let w' := set_theme_as_active request theme w in
  (∀ k, themes w' !! k
        = set_is_active (bool_decide (pk theme = k)) <$> themes w !! k)
  ∧ (∀ k r', themes w' !! k = Some r' →
       ∃ r, themes w !! k = Some r
            ∧ theme_name r' = theme_name r ∧ is_default r' = is_default r)
  ∧ css w' = css w ∧ media w' = media w
  ∧ effects w' = effects w ++ [ClearThemeCache].
Proof.
  cbv zeta. split; [|split; [|done]].
  - intros k. apply activated_lookup.
  - intros k r' Hr'. unfold set_theme_as_active in Hr'; simpl in Hr'.
    rewrite activated_lookup in Hr'.
    destruct (themes w !! k) as [r|]; [|done].
    exists r. by simplify_eq/=.
Qed.

(** X3.  [ActivateTheme.button_action] reports success whether or not a
    row was updated: when the table holds no row of the target's primary
    key, no theme is active afterwards, and the success message naming
    the target is emitted all the same, after the cache was cleared. *)
Theorem button_action_reports_success request target w :
  pk target ∉ dom (themes w) →
  let w' := button_action request target w in
  (∀ k, ¬ active_in (themes w') k)
  ∧ effects w'
    = effects w
      ++ [ClearThemeCache;
          Message Success ("Active theme has been changed to " +:+ dq
                           +:+ theme_str target +:+ dq +:+ ".")].
Proof.
  intros Hmissing. cbv zeta. split.
  - intros k (r & Hr & Hact).
    unfold button_action, set_theme_as_active in Hr; simpl in Hr.
    rewrite activated_lookup in Hr.
    destruct (themes w !! k) as [r0|] eqn:Hk; [|done]. simplify_eq/=.
    apply bool_decide_eq_true_1 in Hact. subst k.
    apply Hmissing, elem_of_dom. eauto.
  - unfold button_action, set_theme_as_active; simpl. by rewrite <- app_assoc.
Qed.

Lemma button_action_reports_success_witness :
  (∀ k, ¬ active_in (themes (button_action activate_request theme_1 world_without_1)) k)
  ∧ effects (button_action activate_request theme_1 world_without_1)
    = effects world_without_1
      ++ [ClearThemeCache;
          Message Success ("Active theme has been changed to " +:+ dq
                           +:+ theme_str theme_1 +:+ dq +:+ ".")].
Proof.
  apply (button_action_reports_success activate_request theme_1 world_without_1).
  unfold world_without_1; simpl. rewrite dom_singleton_L.
  intros Hin%elem_of_singleton. discriminate.
Defined.

(** ** Deleting assets *)

Lemma effects_with_table attr t w : effects (with_table attr t w) = effects w.
Proof. by destruct attr. Qed.

Lemma themes_with_table attr t w : themes (with_table attr t w) = themes w.
Proof. by destruct attr. Qed.

Lemma delete_asset_keeps queryset item w :
  effects (delete_asset queryset item w) = effects w
  ∧ themes (delete_asset queryset item w) = themes w.
Proof.
  unfold delete_asset.
  destruct (table (qs_attr queryset) w !! item) as [a|]; [|done].
  case_bool_decide; [|done]. by rewrite effects_with_table, themes_with_table.
Qed.

Lemma delete_loop_keeps queryset (items : list Z) w :
  effects (foldr (delete_asset queryset) w items) = effects w
  ∧ themes (foldr (delete_asset queryset) w items) = themes w.
Proof.
  induction items as [|item items [IHe IHt]]; simpl; [done|].
  destruct (delete_asset_keeps queryset item (foldr (delete_asset queryset) w items))
    as [-> ->]. done.
Qed.

(** What one [delete_asset] leaves of the queryset's table. *)
Lemma delete_asset_lookup queryset item w k :
  table (qs_attr queryset) (delete_asset queryset item w) !! k
  = a ← table (qs_attr queryset) w !! k;
    if bool_decide (k = item ∧ asset_theme a = qs_theme queryset) then None else Some a.
Proof.
  unfold delete_asset.
  destruct (table (qs_attr queryset) w !! item) as [a0|] eqn:Hitem.
  - case_bool_decide as Howned.
    + rewrite ThemesFacts.table_with_table, decide_True by done.
      destruct (decide (k = item)) as [->|Hne].
      * rewrite lookup_delete_eq, Hitem. simpl.
        by rewrite bool_decide_eq_true_2.
      * rewrite lookup_delete_ne by done.
        destruct (table (qs_attr queryset) w !! k) as [a|]; [|done]. simpl.
        rewrite bool_decide_eq_false_2; [done|]. by intros [? _].
    + destruct (table (qs_attr queryset) w !! k) as [a|] eqn:Hk; [|done]. simpl.
      rewrite bool_decide_eq_false_2; [done|].
      intros [-> ?]. congruence.
  - destruct (table (qs_attr queryset) w !! k) as [a|] eqn:Hk; [|done]. simpl.
    rewrite bool_decide_eq_false_2; [done|]. intros [-> _]. congruence.
Qed.

(** What the loop of [action] leaves of the queryset's table. *)
Lemma delete_loop_lookup queryset (items : list Z) w k :
  table (qs_attr queryset) (foldr (delete_asset queryset) w items) !! k
  = a ← table (qs_attr queryset) w !! k;
    if bool_decide (k ∈ items ∧ asset_theme a = qs_theme queryset) then None else Some a.
Proof.
  induction items as [|item items IH].
  - simpl. by destruct (table (qs_attr queryset) w !! k) as [a|].
  - change (foldr (delete_asset queryset) w (item :: items))
      with (delete_asset queryset item (foldr (delete_asset queryset) w items)).
    rewrite delete_asset_lookup, IH.
    destruct (table (qs_attr queryset) w !! k) as [a|]; [|done].
    cbn [mbind option_bind].
    destruct (decide (asset_theme a = qs_theme queryset)) as [Howned|Hforeign].
    + destruct (decide (k ∈ items)) as [Hin|Hout].
      * rewrite (bool_decide_eq_true_2 (k ∈ items ∧ _)) by done.
        cbn [mbind option_bind].
        rewrite bool_decide_eq_true_2; [done|]. split; [by right | done].
      * rewrite (bool_decide_eq_false_2 (k ∈ items ∧ _)) by (by intros [? _]).
        cbn [mbind option_bind].
        destruct (decide (k = item)) as [->|Hne].
        -- rewrite !bool_decide_eq_true_2; [done| |done]. split; [left | done].
        -- rewrite !bool_decide_eq_false_2; [done| |].
           ++ intros [[?|?]%elem_of_cons _]; done.
           ++ by intros [? _].
    + rewrite (bool_decide_eq_false_2 (k ∈ items ∧ _)) by (by intros [_ ?]).
      cbn [mbind option_bind].
      rewrite !bool_decide_eq_false_2; [done| |]; by intros [_ ?].
Qed.

Section MoreDeleteFacts.

Variable py_int : string → option Z.

Lemma clean_items_list_None request :
  clean_items_list py_int request = None ↔ ∃ s, s ∈ posted request ∧ py_int s = None.
Proof.
  unfold clean_items_list, posted. split.
  - destruct (mapM _ _) as [ns|] eqn:Hm; [done|]. intros _.
    apply mapM_None_1, Exists_exists in Hm. exact Hm.
  - intros Hex. rewrite mapM_None_2; [done|]. by apply Exists_exists.
Qed.

Lemma Forall2_elem_of_r (l : list string) (ns : list Z) k :
  Forall2 (λ s n, py_int s = Some n) l ns →
  k ∈ ns ↔ ∃ s, s ∈ l ∧ py_int s = Some k.
Proof.
  induction 1 as [|s n l ns Hs _ IH].
  - split; [by intros ?%elem_of_nil | by intros (? & ?%elem_of_nil & _)].
  - rewrite elem_of_cons, IH. split.
    + intros [->|(s' & ? & ?)]; [exists s; split; [left|done] |].
      exists s'. split; [by right | done].
    + intros (s' & [->|?]%elem_of_cons & Hs'); [left; congruence|].
      right. eauto.
Qed.

Lemma clean_items_list_elem_of request items k :
  clean_items_list py_int request = Some items →
  k ∈ items ↔ ∃ s, s ∈ posted request ∧ py_int s = Some k.
Proof.
  unfold clean_items_list, posted.
  destruct (mapM _ _) as [ns|] eqn:Hm; [|done]. intros [= <-].
  rewrite elem_of_list_to_set. apply Forall2_elem_of_r. by apply mapM_Some_1.
Qed.

(** X4.  [clean_items_list] returns [None] exactly when one of the first
    twenty posted items is no integer, and otherwise exactly the set of
    their integer values, the empty set when no item is posted.  So it
    depends on nothing but which values are among the first twenty: their
    order, their repetitions, the items after the twentieth and the
    other posted fields play no part. *)
Theorem clean_items_list_first_twenty request :
  (clean_items_list py_int request = None
   ↔ ∃ s, s ∈ posted request ∧ py_int s = None)
  ∧ (∀ items, clean_items_list py_int request = Some items →
       ∀ k, k ∈ items ↔ ∃ s, s ∈ posted request ∧ py_int s = Some k)
  ∧ (getlist "item" (POST request) = [] → clean_items_list py_int request = Some ∅)
  ∧ (∀ request', (∀ s, s ∈ posted request ↔ s ∈ posted request') →
       clean_items_list py_int request = clean_items_list py_int request').
Proof.
  split; [apply clean_items_list_None|].
  split; [intros items Hitems k; by apply clean_items_list_elem_of|].
  split.
  - intros Hempty. unfold clean_items_list. by rewrite Hempty.
  - intros request' Hsame.
    destruct (clean_items_list py_int request) as [items|] eqn:H1;
      destruct (clean_items_list py_int request') as [items'|] eqn:H2.
    + f_equal. apply set_eq. intros k.
      rewrite (clean_items_list_elem_of request items k H1).
      rewrite (clean_items_list_elem_of request' items' k H2).
      by setoid_rewrite Hsame.
    + apply clean_items_list_None in H2 as (s & Hs & Hnone).
      apply Hsame in Hs.
      assert (clean_items_list py_int request = None) as Hcontra
        by (apply clean_items_list_None; eauto).
      congruence.
    + apply clean_items_list_None in H1 as (s & Hs & Hnone).
      apply Hsame in Hs.
      assert (clean_items_list py_int request' = None) as Hcontra
        by (apply clean_items_list_None; eauto).
      congruence.
    + done.
Qed.

(** The table of the view after a POST that cleaned to [items]. *)
Lemma DeleteThemeAssets_action_lookup self request theme w items k :
  clean_items_list py_int request = Some items →
  table (queryset_attr self) (DeleteThemeAssets_action py_int self request theme w) !! k
  = a ← table (queryset_attr self) w !! k;
    if bool_decide (k ∈ items ∧ asset_theme a = pk theme) then None else Some a.
Proof.
  intros Hitems. unfold DeleteThemeAssets_action. rewrite Hitems.
  case_decide as Hempty.
  - subst items. destruct (table (queryset_attr self) w !! k) as [a|]; [|done]. simpl.
    rewrite bool_decide_eq_false_2; [done|]. by intros [?%elem_of_empty _].
  - unfold messages_success. rewrite ThemesFacts.table_emit. unfold set_fold; simpl.
    rewrite (delete_loop_lookup
               {| qs_attr := queryset_attr self; qs_theme := pk theme |}). simpl.
    destruct (table (queryset_attr self) w !! k) as [a|]; [|done]. simpl.
    rewrite (bool_decide_ext (k ∈ elements items ∧ asset_theme a = pk theme)
               (k ∈ items ∧ asset_theme a = pk theme)); [done|].
    by rewrite elem_of_elements.
Qed.

(** X5.  On a POST whose items clean to a set, the view's table loses
    exactly the rows whose key is in the set and that belong to the
    theme: every such row is deleted, and every other row is kept as it
    was; the theme table is not touched. *)
Theorem delete_assets_exactly self request theme w items :
  method request = "POST" →
  clean_items_list py_int request = Some items →
  let w' := world_of (real_dispatch py_int (Delete self) request theme w) in
  (∀ k, table (queryset_attr self) w' !! k
        = a ← table (queryset_attr self) w !! k;
          if bool_decide (k ∈ items ∧ asset_theme a = pk theme) then None else Some a)
  ∧ (∀ k a, table (queryset_attr self) w !! k = Some a → k ∈ items →
       asset_theme a = pk theme → table (queryset_attr self) w' !! k = None)
  ∧ themes w' = themes w.
Proof.
  intros Hpost Hitems. cbv zeta.
  assert (∀ k, table (queryset_attr self)
                 (world_of (real_dispatch py_int (Delete self) request theme w)) !! k
               = a ← table (queryset_attr self) w !! k;
                 if bool_decide (k ∈ items ∧ asset_theme a = pk theme)
                 then None else Some a) as Hlookup.
  { intros k. rewrite ThemesFacts.table_real_dispatch_delete.
    rewrite bool_decide_eq_true_2 by done.
    by apply DeleteThemeAssets_action_lookup. }
  split; [exact Hlookup|]. split.
  - intros k a Hk Hin Howned. rewrite Hlookup, Hk. simpl.
    by rewrite bool_decide_eq_true_2.
  - unfold real_dispatch. rewrite bool_decide_eq_true_2 by done.
    assert (themes (DeleteThemeAssets_action py_int self request theme w) = themes w)
      as Hthemes.
    { unfold DeleteThemeAssets_action. rewrite Hitems. case_decide; [done|].
      unfold set_fold; simpl. apply delete_loop_keeps. }
    destruct self; simpl; exact Hthemes.
Qed.

(** X6.  No asset of another theme is ever deleted: whatever is posted,
    a row of either asset table that does not belong to the theme of the
    request is there afterwards, unchanged. *)
Theorem delete_assets_spares_other_themes self request theme w attr k a :
  table attr w !! k = Some a →
  asset_theme a ≠ pk theme →
  table attr (world_of (real_dispatch py_int (Delete self) request theme w)) !! k
  = Some a.
Proof.
  intros Hk Hforeign.
  destruct (decide (attr = queryset_attr self)) as [->|Hother].
  - rewrite ThemesFacts.table_real_dispatch_delete. case_bool_decide; [|done].
    destruct (clean_items_list py_int request) as [items|] eqn:Hitems.
    + rewrite (DeleteThemeAssets_action_lookup self request theme w items k Hitems).
      rewrite Hk. simpl. rewrite bool_decide_eq_false_2; [done|]. by intros [_ ?].
    + by rewrite ThemesFacts.DeleteThemeAssets_action_None.
  - rewrite ThemesFacts.table_real_dispatch_delete. case_bool_decide; [|done].
    unfold DeleteThemeAssets_action.
    destruct (clean_items_list py_int request) as [items|]; [|done].
    case_decide; [done|]. unfold messages_success, set_fold; simpl.
    rewrite ThemesFacts.table_emit.
    by rewrite ThemesFacts.delete_loop_other_table.
Qed.

(** X7.  What a POST to a delete view adds to the effect log: the success
    message exactly when the posted items clean to a set that is not
    empty, whether or not any row was there to delete, and no message
    otherwise; then, for [DeleteThemeCss] alone, one clearing of the
    theme cache, which happens on every POST. *)
Theorem delete_assets_effects self request theme w :
  method request = "POST" →
  effects (world_of (real_dispatch py_int (Delete self) request theme w))
  = effects w
    ++ match clean_items_list py_int request with
       | Some items =>
           if decide (items = ∅) then []
           else [Message Success (message_submit self)]
       | None => []
       end
    ++ match self with
       | DeleteThemeCss => [ClearThemeCache]
       | DeleteThemeMedia => []
       end.
Proof.
  intros Hpost. unfold real_dispatch. rewrite bool_decide_eq_true_2 by done.
  assert (effects (DeleteThemeAssets_action py_int self request theme w)
          = effects w
            ++ match clean_items_list py_int request with
               | Some items =>
                   if decide (items = ∅) then []
                   else [Message Success (message_submit self)]
               | None => []
               end) as Haction.
  { unfold DeleteThemeAssets_action.
    destruct (clean_items_list py_int request) as [items|]; [|by rewrite app_nil_r].
    case_decide; [by rewrite app_nil_r|].
    unfold set_fold; simpl. f_equal. apply delete_loop_keeps. }
  destruct self; simpl.
  - rewrite Haction. by rewrite <- app_assoc.
  - rewrite Haction. by rewrite app_nil_r.
Qed.

End MoreDeleteFacts.

Lemma delete_assets_exactly_witness :
  table CssAssets
    (world_of (real_dispatch int_ascii (Delete DeleteThemeCss) delete_request_both
                 theme_1 world_with_two_themes)) !! 3 = None
  ∧ table CssAssets
      (world_of (real_dispatch int_ascii (Delete DeleteThemeCss) delete_request_both
                   theme_1 world_with_two_themes)) !! 4
    = Some {| asset_theme := 2; asset_name := "other.css" |}.
Proof.
  destruct (delete_assets_exactly int_ascii DeleteThemeCss delete_request_both theme_1
              world_with_two_themes {[3; 4]} eq_refl eq_refl) as (Hlookup & _ & _).
  split; rewrite Hlookup; reflexivity.
Defined.

Lemma delete_assets_spares_other_themes_witness :
  table CssAssets
    (world_of (real_dispatch int_ascii (Delete DeleteThemeCss) delete_request_both
                 theme_1 world_with_two_themes)) !! 4
  = Some {| asset_theme := 2; asset_name := "other.css" |}.
Proof.
  apply (delete_assets_spares_other_themes int_ascii DeleteThemeCss delete_request_both
           theme_1 world_with_two_themes CssAssets 4); [reflexivity | discriminate].
Defined.

Lemma delete_assets_effects_witness :
  effects (world_of (real_dispatch int_ascii (Delete DeleteThemeMedia) delete_request_both
                       theme_1 world_with_two_themes))
  = [Message Success "Selected media have been deleted."].
Proof.
  exact (delete_assets_effects int_ascii DeleteThemeMedia delete_request_both theme_1
           world_with_two_themes eq_refl).
Defined.

(** ** Uploading assets *)

(** X8.  Without an asset that passed cleaning nothing is saved and
    nothing is queued: all that [UploadThemeAssets.action] adds to the
    effect log is one error message for each error of the assets, and
    nothing at all when the form is valid or when it raises. *)
Theorem upload_action_nothing_cleaned self request theme w :
  truthy (cleaned_assets (form self request theme)) = false →
  let f := form self request theme in
  effects (world_of (UploadThemeAssets_action self request theme w))
  = effects w
    ++ (if is_valid f then [] else Message Error <$> default [] (errors_assets f)).
Proof.
  intros Hnone. cbv zeta. unfold UploadThemeAssets_action, upload_save.
  rewrite Hnone.
  destruct (is_valid (form self request theme)); simpl; [by rewrite app_nil_r|].
  destruct (errors_assets (form self request theme)) as [errors|]; simpl.
  - apply ThemesFacts.effects_messages_errors.
  - by rewrite app_nil_r.
Qed.

Lemma upload_action_nothing_cleaned_witness :
  effects (world_of (UploadThemeAssets_action (UploadThemeCss (λ _ _, rejected_form))
                       upload_request theme_1 world_with_css_3))
  = [Message Error "notes.txt is not a CSS file."].
Proof.
  exact (upload_action_nothing_cleaned (UploadThemeCss (λ _ _, rejected_form))
           upload_request theme_1 world_with_css_3 eq_refl).
Defined.

(** X9.  On an invalid form whose errors hold nothing under [assets],
    [UploadThemeAssets.action] raises [KeyError] at the subscript, before
    the second test of the cleaned assets: those that passed cleaning are
    not saved and no rebuild is queued; the partial-success notice is the
    one message that was emitted, when some asset had passed cleaning. *)
Theorem upload_action_missing_errors self request theme w :
  let f := form self request theme in
  is_valid f = false →
  errors_assets f = None →
  ∃ w', UploadThemeAssets_action self request theme w = Raise (KeyError "assets") w'
        ∧ effects w'
          = effects w
            ++ (if truthy (cleaned_assets f)
                then [Message Info message_partial_success] else []).
Proof.
  cbv zeta. intros Hinvalid Hmissing. unfold UploadThemeAssets_action.
  rewrite Hinvalid, Hmissing. simpl. eexists. split; [done|].
  destruct (truthy _); simpl; [done | by rewrite app_nil_r].
Qed.

Lemma upload_action_missing_errors_witness :
  ∃ w', UploadThemeAssets_action (UploadThemeCss (λ _ _, form_without_asset_errors))
          upload_request theme_1 world_with_css_3
        = Raise (KeyError "assets") w'
        ∧ effects w'
          = effects world_with_css_3 ++ [Message Info message_partial_success].
Proof.
  exact (upload_action_missing_errors (UploadThemeCss (λ _ _, form_without_asset_errors))
           upload_request theme_1 world_with_css_3 eq_refl eq_refl).
Defined.

(** ** Dispatch *)

Section DispatchFacts.

Variable py_int : string → option Z.

(** X10.  [ThemeAssetsActionAdmin.real_dispatch] runs [action] on a POST
    only: a request that is not a POST changes nothing.  Whenever it
    returns, the response is the redirection to the assets of the theme,
    and on a POST the tables and messages are those that [action] left.
    An exception that leaves [action] leaves [real_dispatch] unchanged:
    there is no redirection then. *)
Theorem real_dispatch_outcomes self request theme w :
  (method request ≠ "POST" →
     real_dispatch py_int self request theme w
     = Return (redirect_to_theme_assets theme) w)
  ∧ (∀ response w', real_dispatch py_int self request theme w = Return response w' →
       response = redirect_to_theme_assets theme)
  ∧ (method request = "POST" →
     world_of (real_dispatch py_int self request theme w)
     = world_of (action py_int self request theme w)
     ∧ ∀ e w', action py_int self request theme w = Raise e w' →
               real_dispatch py_int self request theme w = Raise e w').
Proof.
  unfold real_dispatch. split; [|split].
  - intros Hget. by rewrite bool_decide_eq_false_2.
  - intros response w'. case_bool_decide; [|by intros [= <- _]].
    destruct (action py_int self request theme w); [by intros [= <- _] | done].
  - intros Hpost. rewrite bool_decide_eq_true_2 by done.
    split; [by destruct (action py_int self request theme w)|]. by intros e w' ->.
Qed.

End DispatchFacts.

End ThemesMoreFacts.

(* ===================================================================== *)
(** * Properties of the CSS views                                         *)
(* ===================================================================== *)

Module CssViewsFacts.
Import Themes CssViews.

(** ** Messages *)

(** The parts of each message are those that [parse] reads off its text. *)
Example parse_message_submit self :
  parse (message_submit_text self) = Some (message_submit self).
Proof. by destruct self. Qed.

Example parse_message_no_changes :
  parse message_no_changes_text = Some message_no_changes.
Proof. reflexivity. Qed.

Lemma percent_message_submit self n :
  percent (message_submit self) [("name", n)] = inr (submitted self n).
Proof. by destruct self. Qed.

Lemma percent_message_no_changes n :
  percent message_no_changes [("name", n)] = inl (Exc (KeyError "css")).
Proof. reflexivity. Qed.

Section ViewsFacts.

Variable get_target_or_none : Request → Z → World → option Theme.
Variable url_isnull : Asset → bool.
Variable source_needs_building : Css → bool.
Variable css_str : Css → string.
Variable move_css_up move_css_down : Theme → option Css → World → Outcome bool.
Variable source_file_read : Css → Error + string.
Variable CssEditorForm CssLinkForm : FormClass.

Local Abbreviation wrapped_dispatch' :=
  (wrapped_dispatch get_target_or_none url_isnull source_needs_building css_str
     move_css_up move_css_down source_file_read CssEditorForm CssLinkForm).
Local Abbreviation real_dispatch' :=
  (real_dispatch source_needs_building css_str move_css_up move_css_down
     source_file_read CssEditorForm CssLinkForm).
Local Abbreviation form_real_dispatch' :=
  (form_real_dispatch source_needs_building source_file_read CssEditorForm CssLinkForm).
Local Abbreviation handle_form' := (handle_form source_needs_building).
Local Abbreviation get_css := (get_theme_css_or_none url_isnull).

(** ** The checks of [wrapped_dispatch] *)

Lemma wrapped_dispatch_missing_css self request k css_pk w theme :
  get_target_or_none request k w = Some theme →
  is_default (fields theme) = false →
  pk_given css_pk = true → get_css self theme css_pk w = None →
  wrapped_dispatch' self request k css_pk w
  = Returned (to_theme_assets theme)
      (messages_error "Requested CSS could not be found in the theme." w).
Proof.
  intros Htheme Hdefault Hgiven Hnone. unfold wrapped_dispatch, check_permissions.
  by rewrite Htheme, Hdefault, Hgiven, Hnone.
Qed.

Lemma wrapped_dispatch_pass self request k css_pk w theme :
  get_target_or_none request k w = Some theme →
  is_default (fields theme) = false →
  (pk_given css_pk = true → is_Some (get_css self theme css_pk w)) →
  wrapped_dispatch' self request k css_pk w
  = real_dispatch' self request theme (get_css self theme css_pk w) w.
Proof.
  intros Htheme Hdefault Hfound. unfold wrapped_dispatch, check_permissions.
  rewrite Htheme, Hdefault. destruct (pk_given css_pk); [|done].
  by rewrite bool_decide_eq_true_2 by auto.
Qed.

(** X11.  [ThemeCssAdmin.wrapped_dispatch] lets a request through to
    [real_dispatch] only for a theme that exists and is not the default
    theme, and, when a [css_pk] is given, only with the CSS that the view
    found for it.  Every other request changes nothing and runs no move
    and no form: it gets one error message and a redirection, to the
    list of themes when the theme is missing or is the default theme, to
    the assets of the theme when the CSS is missing. *)
Theorem wrapped_dispatch_gate self request k css_pk w :
  (get_target_or_none request k w = None →
     wrapped_dispatch' self request k css_pk w
     = Returned (redirect root_link []) (messages_error message_404 w))
  ∧ (∀ theme, get_target_or_none request k w = Some theme →
       is_default (fields theme) = true →
       wrapped_dispatch' self request k css_pk w
       = Returned (redirect root_link [])
           (messages_error "Default theme assets can't be edited." w))
  ∧ (∀ theme, get_target_or_none request k w = Some theme →
       is_default (fields theme) = false →
       pk_given css_pk = true → get_css self theme css_pk w = None →
       wrapped_dispatch' self request k css_pk w
       = Returned (to_theme_assets theme)
           (messages_error "Requested CSS could not be found in the theme." w))
  ∧ (∀ theme, get_target_or_none request k w = Some theme →
       is_default (fields theme) = false →
       (pk_given css_pk = true → is_Some (get_css self theme css_pk w)) →
       wrapped_dispatch' self request k css_pk w
       = real_dispatch' self request theme (get_css self theme css_pk w) w).
Proof.
  split; [|split; [|split]].
  - unfold wrapped_dispatch. by intros ->.
  - unfold wrapped_dispatch, check_permissions. by intros theme -> ->.
  - intros theme. apply wrapped_dispatch_missing_css.
  - intros theme. apply wrapped_dispatch_pass.
Qed.

(** ** Finding the CSS of a theme *)

Lemma theme_css_get_Some theme css_pk cond w c :
  theme_css_get theme css_pk cond w = Some c →
  CssViews.css_pk c = css_pk
  ∧ ∃ k, css_pk = Some k ∧ css w !! k = Some (css_fields c)
         ∧ asset_theme (css_fields c) = pk theme ∧ cond (css_fields c) = true.
Proof.
  unfold theme_css_get. destruct css_pk as [k|]; [|done].
  destruct (css w !! k) as [a|] eqn:Hk; [|done].
  case_bool_decide as Howned; simpl; [|done].
  destruct (cond a) eqn:Hcond; [|done]. intros [= <-]. simpl. eauto 10.
Qed.

Lemma get_css_owned self theme css_pk w c :
  get_css self theme css_pk w = Some c →
  self ≠ FormAdmin NewThemeCss → self ≠ FormAdmin NewThemeCssLink →
  CssViews.css_pk c = css_pk
  ∧ ∃ k, css_pk = Some k ∧ css w !! k = Some (css_fields c)
         ∧ asset_theme (css_fields c) = pk theme.
Proof.
  intros Hc Hnew Hnewlink.
  assert (∃ cond, theme_css_get theme css_pk cond w = Some c) as [cond Hget].
  { destruct self as [| |[| | |]]; simpl in Hc; try done; eauto.
    all: destruct (pk_given css_pk); simpl in Hc; [eauto | done]. }
  apply theme_css_get_Some in Hget as (? & k & ? & ? & ? & _). eauto 10.
Qed.

(** X12.  A CSS found for a [css_pk] by a move view or by an edit view is
    the row of that key, and it belongs to the theme of the request: the
    CSS of another theme is never found.  The two edit views share the
    CSS that the move views find: a CSS without [url] is found by
    [EditThemeCss] alone, a CSS with [url] by [EditThemeCssLink] alone.
    The two views for new CSS find no row at all: they start from a fresh
    unsaved CSS of the theme. *)
Theorem get_theme_css_or_none_owned theme css_pk w :
  (∀ self c, get_css self theme css_pk w = Some c →
     self ≠ FormAdmin NewThemeCss → self ≠ FormAdmin NewThemeCssLink →
     CssViews.css_pk c = css_pk
     ∧ ∃ k, css_pk = Some k ∧ css w !! k = Some (css_fields c)
            ∧ asset_theme (css_fields c) = pk theme)
  ∧ (pk_given css_pk = true →
     ∀ c, get_css MoveThemeCssUp theme css_pk w = Some c
          ↔ (get_css (FormAdmin EditThemeCss) theme css_pk w = Some c
             ∧ get_css (FormAdmin EditThemeCssLink) theme css_pk w = None
             ∧ url_isnull (css_fields c) = true)
            ∨ (get_css (FormAdmin EditThemeCss) theme css_pk w = None
               ∧ get_css (FormAdmin EditThemeCssLink) theme css_pk w = Some c
               ∧ url_isnull (css_fields c) = false))
  ∧ get_css MoveThemeCssDown theme css_pk w = get_css MoveThemeCssUp theme css_pk w
  ∧ get_css (FormAdmin NewThemeCss) theme css_pk w = Some (new_css theme)
  ∧ get_css (FormAdmin NewThemeCssLink) theme css_pk w = Some (new_css theme)
  ∧ (pk_given css_pk = false → get_css MoveThemeCssUp theme css_pk w = None).
Proof.
  split; [|split; [|split; [done|split; [done|split; [done|]]]]].
  - intros self c. apply get_css_owned.
  - intros Hgiven c. simpl. rewrite Hgiven. simpl.
    unfold theme_css_get. destruct css_pk as [k|]; [|done].
    destruct (css w !! k) as [a|].
    2: { split; [done|]. by intros [(? & _)|(_ & ? & _)]. }
    case_bool_decide; simpl.
    2: { split; [done|]. by intros [(? & _)|(_ & ? & _)]. }
    destruct (url_isnull a) eqn:Hurl; simpl.
    + split.
      * intros [= <-]. by left.
      * by intros [(? & _)|(? & _)].
    + split.
      * intros [= <-]. by right.
      * by intros [(? & _)|(_ & ? & _)].
  - intros Hgiven. simpl. by rewrite Hgiven.
Qed.

(** X13.  The CSS of another theme can be neither moved nor edited: when
    the row of the given [css_pk] belongs to another theme, or is not in
    the table, a move view or an edit view called on a theme that is not
    the default theme emits the error message, redirects to the assets
    of the theme and does nothing else. *)
Theorem wrapped_dispatch_foreign_css self request k css_pk w theme :
  self ≠ FormAdmin NewThemeCss → self ≠ FormAdmin NewThemeCssLink →
  get_target_or_none request k w = Some theme →
  is_default (fields theme) = false →
  pk_given css_pk = true →
  (∀ j a, css_pk = Some j → css w !! j = Some a → asset_theme a ≠ pk theme) →
  wrapped_dispatch' self request k css_pk w
  = Returned (to_theme_assets theme)
      (messages_error "Requested CSS could not be found in the theme." w).
Proof.
  intros Hnew Hnewlink Htheme Hdefault Hgiven Hforeign.
  apply wrapped_dispatch_missing_css; [done..|].
  destruct (get_css self theme css_pk w) as [c|] eqn:Hc; [|done].
  destruct (get_css_owned self theme css_pk w c Hc Hnew Hnewlink)
    as (_ & j & Hj & Hrow & Hmine).
  by destruct (Hforeign j (css_fields c) Hj Hrow).
Qed.

(** X14.  The two views for new CSS take no [css_pk] into account: they
    never report a missing CSS, and they dispatch the request with a
    fresh unsaved CSS of the theme whatever key is given. *)
Theorem wrapped_dispatch_new_ignores_css_pk self request k css_pk w :
  self = NewThemeCss ∨ self = NewThemeCssLink →
  wrapped_dispatch' (FormAdmin self) request k css_pk w
  = wrapped_dispatch' (FormAdmin self) request k None w
  ∧ ∀ theme, get_target_or_none request k w = Some theme →
      is_default (fields theme) = false →
      wrapped_dispatch' (FormAdmin self) request k css_pk w
      = form_real_dispatch' self request theme (Some (new_css theme)) w.
Proof.
  intros Hself. unfold wrapped_dispatch.
  destruct (get_target_or_none request k w) as [theme|]; [|done].
  unfold check_permissions. destruct (is_default (fields theme)) eqn:Hdefault.
  { split; [done|]. by intros ? [= <-]; rewrite Hdefault. }
  assert (get_css (FormAdmin self) theme css_pk w = Some (new_css theme)) as ->
    by by destruct Hself as [-> | ->].
  assert (get_css (FormAdmin self) theme None w = Some (new_css theme)) as ->
    by by destruct Hself as [-> | ->].
  rewrite bool_decide_eq_true_2 by eauto. rewrite andb_false_r.
  split; [done|]. by intros ? [= <-].
Qed.

(** ** The move views *)

(** X15.  [MoveThemeCssUp.real_dispatch] and
    [MoveThemeCssDown.real_dispatch] try the move on a POST only, with
    the CSS they were given.  When the move returns, the answer is the
    redirection to the assets of the theme; the theme cache is cleared
    and the success message is emitted, in that order and after the
    move, exactly when the move reports a change.  An exception that
    leaves the move, as on a missing CSS, leaves the view: nothing is
    cleared, no message is emitted, and there is no redirection. *)
Theorem move_real_dispatch_outcomes (up : bool) request theme css w :
  let move := if up then move_css_up else move_css_down in
  let dispatch := move_real_dispatch css_str move_css_up move_css_down up in
  let text := dq +:+ str css_str css +:+ dq
              +:+ (if up then " was moved up." else " was moved down.") in
  (method request ≠ "POST" →
     dispatch request theme css w = Returned (to_theme_assets theme) w)
  ∧ (method request = "POST" →
     (∀ e w1, move theme css w = Raised e w1 →
        dispatch request theme css w = Raised e w1)
     ∧ (∀ w1, move theme css w = Returned false w1 →
        dispatch request theme css w = Returned (to_theme_assets theme) w1)
     ∧ (∀ w1, move theme css w = Returned true w1 →
        ∃ w', dispatch request theme css w = Returned (to_theme_assets theme) w'
              ∧ effects w' = effects w1 ++ [ClearThemeCache; Message Success text]
              ∧ themes w' = themes w1 ∧ Themes.css w' = Themes.css w1
              ∧ media w' = media w1))
  ∧ (∀ response w', dispatch request theme css w = Returned response w' →
       response = to_theme_assets theme).
Proof.
  intros move dispatch text. subst dispatch. unfold move_real_dispatch. fold move.
  split; [|split].
  - intros Hmethod. by rewrite bool_decide_eq_false_2.
  - intros Hmethod. rewrite bool_decide_eq_true_2 by done.
    split; [|split].
    + by intros e w1 ->.
    + by intros w1 ->.
    + intros w1 ->. eexists. split; [done|]. simpl. by rewrite <-(assoc_L (++)).
  - intros response w'. case_bool_decide; [|by intros [= <- _]].
    destruct (move theme css w) as [[|] w1|e w1]; [| |done]; by intros [= <- _].
Qed.

(** ** Saving a form *)

Lemma save_and_report_Some f c w :
  let saved := {| CssViews.css_pk := Some (save f (Some c) w).1.1;
                  css_fields := (save f (Some c) w).1.2 |} in
  let w1 := (save f (Some c) w).2 in
  ∀ self,
    save_and_report source_needs_building (message_submit self) f (Some c) w
    = Returned saved
        (messages_success (submitted self (name saved))
           (if source_needs_building saved
            then emit (Delay (build_single_theme_css (save f (Some c) w).1.1)) w1
            else clear_theme_cache w1)).
Proof.
  intros saved w1 self. unfold save_and_report. subst saved w1.
  destruct (save f (Some c) w) as [[k a] w1]. simpl.
  by rewrite percent_message_submit.
Qed.

Lemma handle_form_returns self f request theme c w :
  (self = EditThemeCss → has_changed f = true) →
  ∃ w', handle_form' self f request theme (Some c) w
        = Returned {| CssViews.css_pk := Some (save f (Some c) w).1.1;
                      css_fields := (save f (Some c) w).1.2 |} w'.
Proof.
  intros Hchanged.
  pose proof (save_and_report_Some f c w self) as Hsave. simpl in Hsave.
  destruct self; simpl;
    unfold EditThemeCss_handle_form, NewThemeCssLink_handle_form,
      ThemeCssFormAdmin_handle_form;
    rewrite ?Hchanged by done; rewrite Hsave; simpl;
    try destruct (has_changed f); eauto.
Qed.

(** X16.  Saving a CSS: [handle_form] of a view, called with a CSS and,
    in [EditThemeCss], with a changed form, saves the form once and then
    either queues the build of the saved CSS, when its source needs
    building, or clears the theme cache, never both; after that it emits
    the success message of the view with the name of the saved CSS.  The
    two views of CSS links then also queue the update of the remote size
    of the saved CSS and clear the theme cache, when the form has
    changed.  Nothing but the save touches the tables. *)
Theorem handle_form_effects self f request theme c w :
  (self = EditThemeCss → has_changed f = true) →
  let k := (save f (Some c) w).1.1 in
  let saved := {| CssViews.css_pk := Some k; css_fields := (save f (Some c) w).1.2 |} in
  let w1 := (save f (Some c) w).2 in
  ∃ w', handle_form' self f request theme (Some c) w = Returned saved w'
        ∧ effects w'
          = effects w1
            ++ [if source_needs_building saved
                then Delay (build_single_theme_css k) else ClearThemeCache]
            ++ [Message Success (submitted self (name saved))]
            ++ (if is_link self && has_changed f
                then [Delay (update_remote_css_size k); ClearThemeCache] else [])
        ∧ themes w' = themes w1 ∧ Themes.css w' = Themes.css w1
        ∧ media w' = media w1.
Proof.
  intros Hchanged k saved w1.
  pose proof (save_and_report_Some f c w self) as Hsave.
  simpl in Hsave. fold k in Hsave. fold saved in Hsave. fold w1 in Hsave.
  assert (∀ w2, w2 = (if source_needs_building saved
                      then emit (Delay (build_single_theme_css k)) w1
                      else clear_theme_cache w1) →
          effects w2 = effects w1
                       ++ [if source_needs_building saved
                           then Delay (build_single_theme_css k) else ClearThemeCache]
          ∧ themes w2 = themes w1 ∧ Themes.css w2 = Themes.css w1
          ∧ media w2 = media w1) as Hstep.
  { intros w2 ->. by destruct (source_needs_building saved). }
  destruct (Hstep _ eq_refl) as (Heffects & Hthemes & Hcss & Hmedia).
  destruct self; simpl.
  - unfold ThemeCssFormAdmin_handle_form. rewrite Hsave. eexists. split; [done|].
    simpl. rewrite Heffects, Hthemes, Hcss, Hmedia.
    by rewrite <-?(assoc_L (++)), ?app_nil_r.
  - unfold EditThemeCss_handle_form. rewrite Hchanged by done. rewrite Hsave.
    eexists. split; [done|].
    simpl. rewrite Heffects, Hthemes, Hcss, Hmedia.
    by rewrite <-?(assoc_L (++)), ?app_nil_r.
  - unfold NewThemeCssLink_handle_form, ThemeCssFormAdmin_handle_form. rewrite Hsave.
    destruct (has_changed f); simpl; (eexists; split; [done|]); simpl;
      rewrite Heffects, Hthemes, Hcss, Hmedia; by rewrite <-?(assoc_L (++)), ?app_nil_r.
  - unfold NewThemeCssLink_handle_form, ThemeCssFormAdmin_handle_form. rewrite Hsave.
    destruct (has_changed f); simpl; (eexists; split; [done|]); simpl;
      rewrite Heffects, Hthemes, Hcss, Hmedia; by rewrite <-?(assoc_L (++)), ?app_nil_r.
Qed.

(** X17.  Whenever the form handed to [EditThemeCss.handle_form] reports
    no change, the call raises: the message it formats has the
    placeholder [css] and is given the key [name] alone, so the
    formatting raises [KeyError] for [css] before any message is
    emitted, and nothing is saved.  Neither [real_dispatch] nor
    [wrapped_dispatch] catches it: if the form that the editor form
    class builds from a POST is valid and reports no change, the request
    ends in that [KeyError], with the tables and the messages as they
    were.  Whether a form ever reports no change is up to the form
    class, which gets no initial source on a POST. *)
Theorem edit_css_without_changes_raises request k css_pk w theme c :
  get_target_or_none request k w = Some theme →
  is_default (fields theme) = false →
  get_css (FormAdmin EditThemeCss) theme css_pk w = Some c →
  method request = "POST" →
  is_valid (CssEditorForm (Some (POST request)) (Some c) None) = true →
  has_changed (CssEditorForm (Some (POST request)) (Some c) None) = false →
  handle_form source_needs_building EditThemeCss
    (CssEditorForm (Some (POST request)) (Some c) None) request theme (Some c) w
  = Raised (Exc (KeyError "css")) w
  ∧ wrapped_dispatch' (FormAdmin EditThemeCss) request k css_pk w
    = Raised (Exc (KeyError "css")) w.
Proof.
  intros Htheme Hdefault Hcss Hmethod Hvalid Hunchanged.
  assert (handle_form' EditThemeCss (CssEditorForm (Some (POST request)) (Some c) None)
            request theme (Some c) w = Raised (Exc (KeyError "css")) w) as Hhandle.
  { simpl. unfold EditThemeCss_handle_form. by rewrite Hunchanged. }
  split; [done|].
  rewrite (wrapped_dispatch_pass _ _ _ _ _ theme Htheme Hdefault)
    by (rewrite Hcss; eauto).
  rewrite Hcss. simpl. unfold form_real_dispatch, initialize_form.
  rewrite !bool_decide_eq_true_2 by done. simpl form. rewrite Hvalid. simpl andb.
  by rewrite Hhandle.
Qed.

(** ** [ThemeCssFormAdmin.real_dispatch] *)

(** X18.  A form is handled on a POST with a valid form only.  Any other
    request whose form could be built is answered with the rendered
    template of the view, for the theme and the CSS of the request, and
    leaves the tables and the messages as they were: nothing is saved,
    no task is queued and the cache is not cleared. *)
Theorem form_real_dispatch_renders self request theme css w f :
  initialize_form source_file_read self (form CssEditorForm CssLinkForm self)
    request theme css = inr f →
  method request ≠ "POST" ∨ is_valid f = false →
  form_real_dispatch' self request theme css w
  = Returned (render (template self) (pk theme) css) w.
Proof.
  intros Hform Hrefused. unfold form_real_dispatch. rewrite Hform.
  destruct Hrefused as [Hmethod | Hinvalid].
  - by rewrite bool_decide_eq_false_2.
  - by rewrite Hinvalid, andb_false_r.
Qed.

(** X19.  On a POST the form is bound to the posted data and the source
    file of the CSS is never read, in any view; on another method only
    [EditThemeCss] reads it, and a failure of the reading is the outcome
    of the request, with nothing changed. *)
Theorem source_file_read_only_by_edit self request theme css w :
  (method request = "POST" →
     initialize_form source_file_read self (form CssEditorForm CssLinkForm self)
       request theme css
     = inr (form CssEditorForm CssLinkForm self (Some (POST request)) css None))
  ∧ (method request ≠ "POST" → self ≠ EditThemeCss →
     initialize_form source_file_read self (form CssEditorForm CssLinkForm self)
       request theme css
     = inr (form CssEditorForm CssLinkForm self None css None))
  ∧ (∀ c e, method request ≠ "POST" → source_file_read c = inl e →
     form_real_dispatch' EditThemeCss request theme (Some c) w = Raised e w)
  ∧ (∀ c source, method request ≠ "POST" → source_file_read c = inr source →
     form_real_dispatch' EditThemeCss request theme (Some c) w
     = Returned (render (template EditThemeCss) (pk theme) (Some c)) w).
Proof.
  unfold form_real_dispatch, initialize_form. split; [|split; [|split]].
  - intros Hmethod. by rewrite bool_decide_eq_true_2.
  - intros Hmethod Hself. rewrite bool_decide_eq_false_2 by done. by destruct self.
  - intros c e Hmethod Hread. rewrite bool_decide_eq_false_2 by done. by rewrite Hread.
  - intros c source Hmethod Hread. rewrite !bool_decide_eq_false_2 by done.
    by rewrite Hread.
Qed.

(** X20.  After a form was handled, the posted key [stay] alone decides
    the redirection: with it the response is the redirection to the
    edit form of the view for the saved CSS, without it the redirection
    to the assets of the theme. *)
Theorem form_real_dispatch_redirects self request theme c w :
  let f := form CssEditorForm CssLinkForm self (Some (POST request)) (Some c) None in
  method request = "POST" → is_valid f = true →
  (self = EditThemeCss → has_changed f = true) →
  ∃ saved w',
    handle_form' self f request theme (Some c) w = Returned saved w'
    ∧ CssViews.css_pk saved = Some (save f (Some c) w).1.1
    ∧ form_real_dispatch' self request theme (Some c) w
      = Returned (if bool_decide ("stay" ∈ (POST request).*1)
                  then redirect_to_edit_form self theme saved
                  else to_theme_assets theme) w'.
Proof.
  intros f Hmethod Hvalid Hchanged.
  destruct (handle_form_returns self f request theme c w Hchanged) as (w' & Hhandle).
  eexists _, w'. split; [exact Hhandle|]. split; [done|].
  unfold form_real_dispatch, initialize_form.
  rewrite !bool_decide_eq_true_2 by done. fold f. rewrite Hvalid. simpl andb.
  rewrite Hhandle. by case_bool_decide.
Qed.

End ViewsFacts.

(** ** Concrete requests *)

Lemma wrapped_dispatch_foreign_css_witness :
  site_dispatch MoveThemeCssUp move_request 1 (Some 5) css_world
  = Returned (to_theme_assets theme_dark)
      (messages_error "Requested CSS could not be found in the theme." css_world).
Proof.
  apply (wrapped_dispatch_foreign_css lookup_theme is_file never_builds name move_done
           move_done empty_source unchanged_forms saving_forms MoveThemeCssUp
           move_request 1 (Some 5) css_world theme_dark);
    [discriminate | discriminate | reflexivity | reflexivity | reflexivity |].
  intros j a [= <-] Hrow. vm_compute in Hrow. injection Hrow as <-. discriminate.
Defined.

Lemma wrapped_dispatch_new_ignores_css_pk_witness :
  site_dispatch (FormAdmin NewThemeCss) get_request 1 (Some 99) css_world
  = site_dispatch (FormAdmin NewThemeCss) get_request 1 None css_world.
Proof.
  exact (proj1 (wrapped_dispatch_new_ignores_css_pk lookup_theme is_file never_builds
                  name move_done move_done empty_source unchanged_forms saving_forms
                  NewThemeCss get_request 1 (Some 99) css_world (or_introl eq_refl))).
Defined.

Lemma handle_form_effects_witness :
  ∃ w', handle_form never_builds EditThemeCssLink saving_form stay_request theme_dark
          (Some font_css) css_world
        = Returned {| css_pk := Some 4;
                      css_fields := {| asset_theme := 1; asset_name := "print.css" |} |} w'
        ∧ effects w'
          = [ClearThemeCache;
             Message Success (submitted EditThemeCssLink "print.css");
             Delay (update_remote_css_size 4);
             ClearThemeCache].
Proof.
  destruct (handle_form_effects never_builds EditThemeCssLink saving_form stay_request
              theme_dark font_css css_world) as (w' & Hhandle & Heffects & _);
    [discriminate|].
  exists w'. split; [exact Hhandle | exact Heffects].
Defined.

Lemma edit_css_without_changes_raises_witness :
  site_dispatch (FormAdmin EditThemeCss) stay_request 1 (Some 3) css_world
  = Raised (Exc (KeyError "css")) css_world.
Proof.
  exact (proj2 (edit_css_without_changes_raises lookup_theme is_file never_builds name
                  move_done move_done empty_source unchanged_forms saving_forms
                  stay_request 1 (Some 3) css_world theme_dark site_css
                  eq_refl eq_refl eq_refl eq_refl eq_refl eq_refl)).
Defined.

Lemma form_real_dispatch_renders_witness :
  site_form_dispatch NewThemeCssLink get_request theme_dark (Some (new_css theme_dark))
    css_world
  = Returned (render "assets/css-link-form.html" 1 (Some (new_css theme_dark))) css_world.
Proof.
  apply (form_real_dispatch_renders never_builds empty_source unchanged_forms
           saving_forms NewThemeCssLink get_request theme_dark
           (Some (new_css theme_dark)) css_world saving_form); [reflexivity|].
  left. discriminate.
Defined.

Lemma form_real_dispatch_redirects_witness :
  ∃ w', site_form_dispatch NewThemeCssLink stay_request theme_dark
          (Some (new_css theme_dark)) css_world
        = Returned (redirect "misago:admin:appearance:themes:new-css-link"
                      [("pk", Some 1)]) w'.
Proof.
  destruct (form_real_dispatch_redirects never_builds empty_source unchanged_forms
              saving_forms NewThemeCssLink stay_request theme_dark (new_css theme_dark)
              css_world eq_refl eq_refl) as (saved & w' & _ & _ & Hdispatch);
    [discriminate|].
  exists w'. exact Hdispatch.
Defined.

(** ** New themes *)

Lemma getlist_app key d1 d2 : getlist key (d1 ++ d2) = getlist key d1 ++ getlist key d2.
Proof. unfold getlist. by rewrite filter_app, fmap_app. Qed.

Lemma getlist_absent key d : key ∉ d.*1 → getlist key d = [].
Proof.
  unfold getlist. induction d as [|[k v] d IH]; [done|].
  rewrite fmap_cons, not_elem_of_cons. simpl. intros [Hk Hd].
  rewrite filter_cons_False by (simpl; congruence). auto.
Qed.

(** X21.  [NewTheme.initialize_form] never fails on the query string of
    a request that is not a POST: without a [parent] the form starts
    with no initial value, and among several [parent] the last one
    decides, giving the initial parent when it reads as an integer and
    no initial value otherwise. *)
Theorem NewTheme_initialize_form_last_parent py_int request GET :
  method request ≠ "POST" →
  ("parent" ∉ GET.*1 → NewTheme_initialize_form py_int request GET = Unbound [])
  ∧ ∀ before v after,
      GET = before ++ ("parent", v) :: after → "parent" ∉ after.*1 →
      NewTheme_initialize_form py_int request GET
      = Unbound (match py_int v with Some n => [("parent", n)] | None => [] end).
Proof.
  intros Hmethod. unfold NewTheme_initialize_form, querydict_get.
  rewrite bool_decide_eq_false_2 by done. split.
  - intros Habsent. by rewrite getlist_absent.
  - intros before v after -> Hlast.
    rewrite getlist_app. change (("parent", v) :: after) with ([("parent", v)] ++ after).
    rewrite getlist_app, (getlist_absent _ after Hlast), app_nil_r.
    change (getlist "parent" [("parent", v)]) with [v].
    rewrite last_snoc. by destruct (py_int v).
Qed.

Lemma NewTheme_initialize_form_last_parent_witness :
  NewTheme_initialize_form int_ascii get_request two_parents = Unbound [("parent", 2)].
Proof.
  apply (proj2 (NewTheme_initialize_form_last_parent int_ascii get_request two_parents
                  ltac:(discriminate)) [("parent", "7")] "2" []); [reflexivity|].
  apply not_elem_of_nil.
Defined.

End CssViewsFacts.

(* ===================================================================== *)
(** * Properties of the contributions to the GraphQL registry             *)
(* ===================================================================== *)

Module HooksMoreFacts.
Import Hooks HooksMore.

Section ContributionFacts.

Context {Directive : Type}.
Implicit Types (regs : list (string * Directive)) (hook : gmap string Directive).

Lemma setitems_snoc regs r hook :
  setitems (regs ++ [r]) hook
  = match setitems regs hook with
    | Stored d => setitem r.1 r.2 d
    | RegistrationError n => RegistrationError n
    end.
Proof. unfold setitems. by rewrite foldl_app. Qed.

(** X22.  Item assignments on [graphql_directives_hook] never fail,
    however many plugins contribute and whatever the names: afterwards
    each name is bound to the directive that was assigned to it last,
    and a name that no plugin assigned is as it was before. *)
Theorem setitems_last_wins regs hook :
  ∃ d, setitems regs hook = Stored d
       ∧ ∀ name, d !! name
                 = match last (filter (λ r, r.1 = name) regs) with
                   | Some r => Some r.2
                   | None => hook !! name
                   end.
Proof.
  induction regs as [|r regs IH] using rev_ind.
  - by exists hook.
  - destruct IH as (d & Hd & Hlookup). rewrite setitems_snoc, Hd.
    eexists. split; [done|]. intros name. rewrite filter_app.
    destruct (decide (r.1 = name)) as [<- | Hother].
    + rewrite filter_cons_True, filter_nil by done.
      by rewrite last_snoc, lookup_insert_eq.
    + rewrite filter_cons_False, filter_nil, app_nil_r by done.
      by rewrite lookup_insert_ne.
Qed.

End ContributionFacts.

End HooksMoreFacts.
